(** * The Othello rules engine of [src/App.tsx]

    A shallow embedding of the engine functions ([createInitialBoard],
    [isValidMove], [makeMove], [getValidMoves], [countPieces]), of the game
    screen (its click handler, its reset and what it renders) and of the
    application around it (the start screen and the two screens' buttons),
    followed by the properties the specification states about them and by
    further properties of the code.

    JavaScript arrays are lists read by integer index.  Reading past the end
    of an array gives [undefined]; reading a property of [undefined] raises a
    [TypeError].  Both are part of the model: every function returns an
    [outcome].

    The engine is given twice, from the same code: on board values, where
    most properties are stated, and on a store of array objects, where it
    can be said which arrays a call writes to and which it creates. *)

From stdpp Require Import base option list sorting strings gmap.
From Stdlib Require Import ZArith Lia.

Local Open Scope Z_scope.

(** ** Values *)

(** [type Player = 'black' | 'white'] *)
Inductive Player : Type := black | white.

Global Instance Player_eq_dec : EqDecision Player.
Proof. solve_decision. Defined.

(** [type Cell = Player | null]: [None] is [null]. *)
Abbreviation Cell := (option Player).

(** What the expression [board[r][c]] can evaluate to: a cell, or
    [undefined] when [c] is not an index of the row. *)
Inductive jsval : Type :=
| undefined
| cell (x : Cell).

Global Instance jsval_eq_dec : EqDecision jsval.
Proof. solve_decision. Defined.

(** [v === p] for a player tag [p]. *)
Definition isPlayer (v : jsval) (p : Player) : bool :=
  match v with
  | cell (Some q) => bool_decide (q = p)
  | _ => false
  end.

(** [v !== null] *)
Definition notNull (v : jsval) : bool :=
  match v with
  | cell None => false
  | _ => true
  end.

(** ** Outcomes of running a piece of the program *)

Inductive exn : Type := TypeError | RangeError.

(** The three ways in which the embedding can fail to follow the program.
    None of them is a JavaScript behaviour, and none occurs on an N×N board
    (see [engine_within_model], [heap_within_model]). *)
Inductive limit : Type :=
| OutOfFuel   (* a [while] loop was cut short *)
| Resize      (* a store outside the bounds of a row: the array would grow *)
| Dangling.   (* a reference that the store does not hold *)

Inductive outcome (A : Type) : Type :=
| Ret (a : A)
| Throw (e : exn)
| Beyond (l : limit).

Arguments Ret {A} a.
Arguments Throw {A} e.
Arguments Beyond {A} l.

Global Instance exn_eq_dec : EqDecision exn.
Proof. solve_decision. Defined.
Global Instance limit_eq_dec : EqDecision limit.
Proof. solve_decision. Defined.
Global Instance outcome_eq_dec {A} `{EqDecision A} : EqDecision (outcome A).
Proof. solve_decision. Defined.

Global Instance outcome_ret : MRet outcome := @Ret.
Global Instance outcome_bind : MBind outcome := λ A B f m,
  match m with
  | Ret a => f a
  | Throw e => Throw e
  | Beyond l => Beyond l
  end.

(** ** Indices *)

(** [xs[i]] for an integer [i]: [None] stands for [undefined]. *)
Definition index {A : Type} (xs : list A) (i : Z) : option A :=
  if bool_decide (0 ≤ i) then xs !! Z.to_nat i else None.

(** [r >= 0 && r < boardSize && c >= 0 && c < boardSize] *)
Definition inBounds (boardSize r c : Z) : bool :=
  (0 <=? r) && (r <? boardSize) && (0 <=? c) && (c <? boardSize).

(** The table [directions], in the order of the source. *)
Definition directions : list (Z * Z) :=
  [ (-1, -1); (-1, 0); (-1, 1);
    (0, -1);           (0, 1);
    (1, -1);  (1, 0);  (1, 1) ].

(** [player === 'black' ? 'white' : 'black'] *)
Definition opponentOf (player : Player) : Player :=
  match player with
  | black => white
  | white => black
  end.


(** ** The engine, over any memory that holds a board

    The functions below are written once, against the two accesses the
    source makes to a board: the read [board[r][c]] and the store
    [board[r][c] = x].  They are used twice: with boards as plain values
    (lists of rows), and with boards as references into a store of arrays,
    where aliasing is visible. *)

Module Engine.
Section Engine.
Context {mem : Type}.
Variable rd : mem → Z → Z → outcome jsval.
Variable wr : mem → Z → Z → Cell → outcome mem.

(** The [while] loop of [isValidMove] (lines 37-47).  The result [true]
    is the [return true] of line 41; [false] is the loop ending, by its
    condition or by [break]. *)
Fixpoint scanLoop (fuel : nat) (board : mem) (player opponent : Player)
    (boardSize dr dc r c : Z) (hasOpponent : bool) : outcome bool :=
  match fuel with
  | O => Beyond OutOfFuel
  | S fuel' =>
      if inBounds boardSize r c then
        v ← rd board r c;
        if isPlayer v opponent then
          scanLoop fuel' board player opponent boardSize dr dc
            (r + dr) (c + dc) true
        else if isPlayer v player && hasOpponent then Ret true
        else Ret false
      else Ret false
  end.

(** A ray holds at most [boardSize] cells, so this many rounds are
    enough for the loop condition to fail (see [loopFuel_enough]). *)
Definition loopFuel (boardSize : Z) : nat := S (Z.to_nat boardSize).

(** [for (const [dr, dc] of directions)] in [isValidMove]. *)
Fixpoint scanDirections (ds : list (Z * Z)) (board : mem)
    (row col : Z) (player opponent : Player) (boardSize : Z) : outcome bool :=
  match ds with
  | [] => Ret false
  | (dr, dc) :: ds' =>
      found ← scanLoop (loopFuel boardSize) board player opponent boardSize
                dr dc (row + dr) (col + dc) false;
      if found : bool then Ret true
      else scanDirections ds' board row col player opponent boardSize
  end.

Definition isValidMove (board : mem) (row col : Z) (player : Player)
    (boardSize : Z) : outcome bool :=
  v ← rd board row col;
  if notNull v then Ret false
  else scanDirections directions board row col player (opponentOf player)
         boardSize.

(** [toFlip.forEach(([fr, fc]) => { newBoard[fr][fc] = player; })] *)
Fixpoint flipAll (newBoard : mem) (toFlip : list (Z * Z)) (player : Player)
    : outcome mem :=
  match toFlip with
  | [] => Ret newBoard
  | (fr, fc) :: rest =>
      newBoard' ← wr newBoard fr fc (Some player);
      flipAll newBoard' rest player
  end.

(** The [while] loop of [makeMove] (lines 66-79); [toFlip.push] adds at
    the end. *)
Fixpoint flipLoop (fuel : nat) (newBoard : mem) (player opponent : Player)
    (boardSize dr dc r c : Z) (toFlip : list (Z * Z)) : outcome mem :=
  match fuel with
  | O => Beyond OutOfFuel
  | S fuel' =>
      if inBounds boardSize r c then
        v ← rd newBoard r c;
        if isPlayer v opponent then
          flipLoop fuel' newBoard player opponent boardSize dr dc
            (r + dr) (c + dc) (toFlip ++ [(r, c)])
        else if isPlayer v player && bool_decide (0 < length toFlip)%nat then
          flipAll newBoard toFlip player
        else Ret newBoard
      else Ret newBoard
  end.

(** [for (const [dr, dc] of directions)] in [makeMove]. *)
Fixpoint flipDirections (ds : list (Z * Z)) (newBoard : mem)
    (row col : Z) (player opponent : Player) (boardSize : Z) : outcome mem :=
  match ds with
  | [] => Ret newBoard
  | (dr, dc) :: ds' =>
      newBoard' ← flipLoop (loopFuel boardSize) newBoard player opponent
                    boardSize dr dc (row + dr) (col + dc) [];
      flipDirections ds' newBoard' row col player opponent boardSize
  end.

(** Lines 57-82 of [makeMove]: what is done to the copy. *)
Definition placeAndFlip (newBoard : mem) (row col : Z) (player : Player)
    (boardSize : Z) : outcome mem :=
  newBoard' ← wr newBoard row col (Some player);
  flipDirections directions newBoard' row col player (opponentOf player)
    boardSize.

(** A counted loop [for (let i = 0; i < n; i++)] whose body does not
    assign [i] or [n], run over an accumulator. *)
Fixpoint forEachM {A : Type} (idxs : list Z) (body : Z → A → outcome A)
    (acc : A) : outcome A :=
  match idxs with
  | [] => Ret acc
  | i :: idxs' => acc' ← body i acc; forEachM idxs' body acc'
  end.

(** [for (let i = 0; i < n; i++)]: the body at 0, 1, ..., n - 1.  This
    is the loop of the source for [n ≤ maxCount], where the counter is
    exact; the side of an N×N board of arrays is below it, an array having
    fewer than 2^32 elements.  For a larger [n] the counter of the source
    stays at 2^53 and its loop does not end: what is proved of boards that
    need not be N×N assumes [n ≤ maxCount]. *)
Definition forRange {A : Type} (n : Z) (body : Z → A → outcome A)
    (acc : A) : outcome A :=
  forEachM (seqZ 0 n) body acc.

Definition getValidMoves (board : mem) (player : Player) (boardSize : Z)
    : outcome (list (Z * Z)) :=
  forRange boardSize (λ row moves,
    forRange boardSize (λ col moves,
      valid ← isValidMove board row col player boardSize;
      if valid : bool then Ret (moves ++ [(row, col)]) else Ret moves)
    moves)
  [].

(** The result record [{ black, white }] as a pair. *)
Definition countPieces (board : mem) (boardSize : Z) : outcome (Z * Z) :=
  forRange boardSize (λ row counts,
    forRange boardSize (λ col counts,
      let '(black_n, white_n) := counts in
      v ← rd board row col;
      if isPlayer v black then Ret (black_n + 1, white_n)
      else if isPlayer v white then Ret (black_n, white_n + 1)
      else Ret (black_n, white_n))
    counts)
  (0, 0).

End Engine.
End Engine.

Arguments Engine.loopFuel : simpl never.

(** ** Boards as values

    [type Board = Cell[][]]: a list of rows.  Numbers are integers, and
    arithmetic on them is exact, as it is in the source up to 2^53
    ([maxCount]).  An array that the code builds has a length up to
    [maxArrayLength]: beyond it [Array(size)] raises.  The memory that a
    JavaScript engine has is not part of the embedding. *)

Abbreviation Board := (list (list Cell)).

(** [board[r][c]]: a missing row is [undefined], and reading its property
    [c] raises; a missing column of a row that is there is [undefined]. *)
Definition get (board : Board) (r c : Z) : outcome jsval :=
  match index board r with
  | None => Throw TypeError
  | Some cells =>
      Ret (match index cells c with
           | None => undefined
           | Some x => cell x
           end)
  end.

(** [board[r][c] = x]: a missing row raises; a store outside the row
    would resize it, which a list of cells does not follow. *)
Definition set (board : Board) (r c : Z) (x : Cell) : outcome Board :=
  match index board r with
  | None => Throw TypeError
  | Some cells =>
      if bool_decide (0 ≤ c < Z.of_nat (length cells))
      then Ret (<[Z.to_nat r := <[Z.to_nat c := x]> cells]> board)
      else Beyond Resize
  end.

(** The largest length of an array, 2^32 - 1. *)
Definition maxArrayLength : Z := 4294967295.

(** [Array(size).fill(x)]: [Array(size)] raises a [RangeError] unless
    [size] is a length that an array can have. *)
Definition newArray {A : Type} (size : Z) (x : A) : outcome (list A) :=
  if bool_decide (0 ≤ size ≤ maxArrayLength)
  then Ret (replicate (Z.to_nat size) x)
  else Throw RangeError.

(** [board.map(row => [...row])] *)
Definition copyBoard (board : Board) : Board :=
  map (λ row, row) board.

(** [size / 2] is a half-integer for odd [size]; no row has such an index,
    and the first store (line 13) raises. *)
Definition createInitialBoard (size : Z) : outcome Board :=
  blank ← newArray size (None : Cell);
  board ← mapM (λ _, newArray size (None : Cell)) blank;
  if Z.even size then
    let center := size / 2 in
    board ← set board (center - 1) (center - 1) (Some white);
    board ← set board (center - 1) center (Some black);
    board ← set board center (center - 1) (Some black);
    set board center center (Some white)
  else Throw TypeError.

Definition isValidMove (board : Board) (row col : Z) (player : Player)
    (boardSize : Z) : outcome bool :=
  Engine.isValidMove get board row col player boardSize.

Definition makeMove (board : Board) (row col : Z) (player : Player)
    (boardSize : Z) : outcome Board :=
  valid ← isValidMove board row col player boardSize;
  if negb valid then Ret board
  else Engine.placeAndFlip get set (copyBoard board) row col player boardSize.

Definition getValidMoves (board : Board) (player : Player) (boardSize : Z)
    : outcome (list (Z * Z)) :=
  Engine.getValidMoves get board player boardSize.

Definition countPieces (board : Board) (boardSize : Z) : outcome (Z * Z) :=
  Engine.countPieces get board boardSize.

(** ** The game screen

    The four [useState] cells of [GameScreen], and [handleCellClick] as the
    change a click makes to them. *)

Inductive Winner : Type := won (p : Player) | tie.

Record Session : Type := mkSession {
  board : Board;
  currentPlayer : Player;
  gameOver : bool;
  winner : option Winner
}.

Definition handleCellClick (boardSize : Z) (st : Session) (row col : Z)
    : outcome Session :=
  if gameOver st then Ret st
  else
    valid ← isValidMove (board st) row col (currentPlayer st) boardSize;
    if negb valid then Ret st
    else
      newBoard ← makeMove (board st) row col (currentPlayer st) boardSize;
      let nextPlayer := opponentOf (currentPlayer st) in
      nextPlayerMoves ← getValidMoves newBoard nextPlayer boardSize;
      currentPlayerMoves ← getValidMoves newBoard (currentPlayer st) boardSize;
      if bool_decide (0 < length nextPlayerMoves)%nat then
        Ret (mkSession newBoard nextPlayer (gameOver st) (winner st))
      else if bool_decide (0 < length currentPlayerMoves)%nat then
        Ret (mkSession newBoard (currentPlayer st) (gameOver st) (winner st))
      else
        counts ← countPieces newBoard boardSize;
        let '(black_n, white_n) := counts in
        Ret (mkSession newBoard (currentPlayer st) true
               (Some (if bool_decide (black_n > white_n) then won black
                      else if bool_decide (white_n > black_n) then won white
                      else tie))).

(** [useState] initial values, also what [resetGame] sets. *)
Definition initialSession (boardSize : Z) : outcome Session :=
  b ← createInitialBoard boardSize;
  Ret (mkSession b black false None).

(** ** Boards as objects

    A JavaScript array is an object: two variables may hold the same array,
    and a store through one is seen through the other.  Here a board is a
    reference to an array of references to rows, and [makeMove] and
    [createInitialBoard] run on a store of arrays.  [makeMove] is the engine
    code above, applied to this memory; what it allocates is new in the
    store. *)

Module Heap.

Abbreviation loc := positive.

Record store : Type := mkStore {
  outers : gmap loc (list loc);   (* the arrays of rows *)
  inners : gmap loc (list Cell)   (* the rows *)
}.

(** [board[r][c]] through the reference [b]. *)
Definition load (b : loc) (s : store) (r c : Z) : outcome jsval :=
  match outers s !! b with
  | None => Beyond Dangling
  | Some rows =>
      match index rows r with
      | None => Throw TypeError
      | Some l =>
          match inners s !! l with
          | None => Beyond Dangling
          | Some cells =>
              Ret (match index cells c with
                   | None => undefined
                   | Some x => cell x
                   end)
          end
      end
  end.

(** [board[r][c] = x] through the reference [b]: the row object is
    updated in place. *)
Definition assign (b : loc) (s : store) (r c : Z) (x : Cell) : outcome store :=
  match outers s !! b with
  | None => Beyond Dangling
  | Some rows =>
      match index rows r with
      | None => Throw TypeError
      | Some l =>
          match inners s !! l with
          | None => Beyond Dangling
          | Some cells =>
              if bool_decide (0 ≤ c < Z.of_nat (length cells))
              then Ret (mkStore (outers s)
                          (<[l := <[Z.to_nat c := x]> cells]> (inners s)))
              else Beyond Resize
          end
      end
  end.

(** A new row object with the given cells. *)
Definition allocRow (s : store) (cells : list Cell) : store * loc :=
  let l := fresh (dom (inners s)) in
  (mkStore (outers s) (<[l := cells]> (inners s)), l).

(** A new array of rows. *)
Definition allocOuter (s : store) (rows : list loc) : store * loc :=
  let b := fresh (dom (outers s)) in
  (mkStore (<[b := rows]> (outers s)) (inners s), b).

(** [[...row]]: a new array with the elements of [row]. *)
Definition spread (s : store) (l : loc) : outcome (store * loc) :=
  match inners s !! l with
  | None => Beyond Dangling
  | Some cells => Ret (allocRow s cells)
  end.

Fixpoint spreadRows (s : store) (rows : list loc)
    : outcome (store * list loc) :=
  match rows with
  | [] => Ret (s, [])
  | l :: rows' =>
      '(s1, l') ← spread s l;
      '(s2, rows'') ← spreadRows s1 rows';
      Ret (s2, l' :: rows'')
  end.

(** [board.map(row => [...row])]: a new array of new rows. *)
Definition copyBoard (s : store) (b : loc) : outcome (store * loc) :=
  match outers s !! b with
  | None => Beyond Dangling
  | Some rows =>
      '(s1, rows') ← spreadRows s rows;
      Ret (allocOuter s1 rows')
  end.

(** [.map(() => Array(size).fill(null))] over an array of [n] elements:
    the callback runs once per element and builds a new row each time. *)
Fixpoint allocRows (s : store) (n : nat) (size : Z)
    : outcome (store * list loc) :=
  match n with
  | O => Ret (s, [])
  | S n' =>
      cells ← newArray size (None : Cell);
      let '(s1, l) := allocRow s cells in
      '(s2, rows) ← allocRows s1 n' size;
      Ret (s2, l :: rows)
  end.

(** The array [Array(size).fill(null)] that [map] runs over is dropped
    once [map] has built the board; only its length matters. *)
Definition createInitialBoard (s : store) (size : Z) : outcome (store * loc) :=
  blank ← newArray size (None : Cell);
  '(s1, rows) ← allocRows s (length blank) size;
  let '(s2, board) := allocOuter s1 rows in
  if Z.even size then
    let center := size / 2 in
    s3 ← assign board s2 (center - 1) (center - 1) (Some white);
    s4 ← assign board s3 (center - 1) center (Some black);
    s5 ← assign board s4 center (center - 1) (Some black);
    s6 ← assign board s5 center center (Some white);
    Ret (s6, board)
  else Throw TypeError.

Definition makeMove (s : store) (board : loc) (row col : Z) (player : Player)
    (boardSize : Z) : outcome (store * loc) :=
  valid ← Engine.isValidMove (load board) s row col player boardSize;
  if negb valid then Ret (s, board)
  else
    '(s1, newBoard) ← copyBoard s board;
    s2 ← Engine.placeAndFlip (load newBoard) (assign newBoard) s1
           row col player boardSize;
    Ret (s2, newBoard).

(** The board value that a reference stands for. *)
Definition deref (s : store) (b : loc) : option Board :=
  rows ← outers s !! b; mapM (λ l, inners s !! l) rows.

End Heap.

(** ** The rest of the game screen, and the application

    [resetGame], the parts of the render of [GameScreen] that are computed
    (the two scores, the status line, and for each cell its piece and
    whether it is marked as a valid move), and the two [useState] cells of
    [App] with its handlers. *)

Global Instance Winner_eq_dec : EqDecision Winner.
Proof. solve_decision. Defined.

(** [resetGame] (lines 165-170). *)
Definition resetGame (boardSize : Z) (st : Session) : outcome Session :=
  b ← createInitialBoard boardSize;
  Ret (mkSession b black false None).

(** [validMoves.some(([r, c]) => r === rowIndex && c === colIndex)] *)
Definition isHighlighted (validMoves : list (Z * Z)) (rowIndex colIndex : nat)
    : bool :=
  existsb (λ rc, (rc.1 =? Z.of_nat rowIndex) && (rc.2 =? Z.of_nat colIndex))
    validMoves.

(** The text of the [game-status] element (lines 195-203). *)
Definition statusText (st : Session) : string :=
  if gameOver st then
    "ゲーム終了! " +:+
    (if bool_decide (winner st = Some tie) then "引き分け"
     else (if bool_decide (winner st = Some (won black)) then "黒" else "白")
          +:+ "の勝ち")
  else
    (match currentPlayer st with black => "黒" | white => "白" end) +:+ "の番".

Record View : Type := mkView {
  scores : Z * Z;                      (* black, white (lines 187, 191) *)
  status : string;
  cells : list (list (bool * Cell))    (* valid-move mark and piece *)
}.

(** The body of [GameScreen] from line 172 on: the two calls into the
    engine, then [board.map] over the rows and [row.map] over the cells. *)
Definition render (boardSize : Z) (st : Session) : outcome View :=
  counts ← countPieces (board st) boardSize;
  validMoves ← getValidMoves (board st) (currentPlayer st) boardSize;
  Ret (mkView counts (statusText st)
         (imap (λ rowIndex row,
                  imap (λ colIndex x,
                          (isHighlighted validMoves rowIndex colIndex, x)) row)
               (board st))).

(** [type GameState = 'start' | 'playing'] *)
Inductive GameState : Type := start | playing.

(** The state of [App], and the state of the [GameScreen] it shows, if it
    shows one: a component has state from the render that first shows it
    to the render that no longer does. *)
Record App : Type := mkApp {
  gameState : GameState;
  boardSize : Z;
  screen : option Session
}.

(** [useState('start')], [useState(8)]; the first render shows the start
    screen. *)
Definition initialApp : App := mkApp start 8 None.

(** The render of [App] after a change of its state (lines 242-251): the
    start screen, or the game screen, whose state is initialised when it
    appears (lines 136-139) and kept while it stays. *)
Definition mountScreen (a : App) : outcome App :=
  match gameState a with
  | start => Ret (mkApp start (boardSize a) None)
  | playing =>
      match screen a with
      | Some _ => Ret a
      | None =>
          st ← initialSession (boardSize a);
          Ret (mkApp playing (boardSize a) (Some st))
      end
  end.

Definition handleSelectSize (size : Z) (a : App) : outcome App :=
  mountScreen (mkApp playing size (screen a)).

Definition handleBackToStart (a : App) : outcome App :=
  mountScreen (mkApp start (boardSize a) (screen a)).

(** What the user can click: the two size buttons of the start screen; the
    back button, a cell and the reset button of the game screen. *)
Inductive Event : Type :=
| ClickSize6
| ClickSize8
| ClickBack
| ClickCell (rowIndex colIndex : nat)
| ClickReset.

(** The handler that a click runs; [None] when the element is not on the
    screen.  A cell is on the screen when the board has it (lines
    207-213). *)
Definition fire (a : App) (e : Event) : option (outcome App) :=
  match gameState a, screen a, e with
  | start, _, ClickSize6 => Some (handleSelectSize 6 a)
  | start, _, ClickSize8 => Some (handleSelectSize 8 a)
  | playing, Some st, ClickBack => Some (handleBackToStart a)
  | playing, Some st, ClickCell rowIndex colIndex =>
      match board st !! rowIndex ≫= (.!! colIndex) with
      | Some _ =>
          Some (st' ← handleCellClick (boardSize a) st
                        (Z.of_nat rowIndex) (Z.of_nat colIndex);
                Ret (mkApp (gameState a) (boardSize a) (Some st')))
      | None => None
      end
  | playing, Some st, ClickReset =>
      Some (st' ← resetGame (boardSize a) st;
            Ret (mkApp (gameState a) (boardSize a) (Some st')))
  | _, _, _ => None
  end.


(** * The vocabulary of the properties *)

(** An N×N board: N rows of N cells. *)
Definition wfBoard (N : Z) (B : Board) : Prop :=
  Z.of_nat (length B) = N ∧ Forall (λ cells, Z.of_nat (length cells) = N) B.

(** The eight neighbours: each delta in -1..1, not both zero. *)
Definition isDirection (dr dc : Z) : Prop :=
  -1 ≤ dr ≤ 1 ∧ -1 ≤ dc ≤ 1 ∧ (dr ≠ 0 ∨ dc ≠ 0).

(** How many more cells a walk from [(r, c)] can visit before it leaves
    the board. *)
Definition rayLeft (N dr dc r c : Z) : Z :=
  if decide (dr = 1) then N - r
  else if decide (dr = -1) then r + 1
  else if decide (dc = 1) then N - c
  else c + 1.

(** The [i]-th cell of the ray from [(row, col)] in direction [(dr, dc)] is
    on the board and holds a piece of [q]. *)
Definition ownedAt (B : Board) (N row col dr dc : Z) (q : Player) (i : Z)
    : Prop :=
  inBounds N (row + i * dr) (col + i * dc) = true ∧
  get B (row + i * dr) (col + i * dc) = Ret (cell (Some q)).

(** Cells [j .. k-1] of the ray are the opponent's. *)
Definition opponentRun (B : Board) (N : Z) (p : Player) (row col dr dc : Z)
    (j k : Z) : Prop :=
  ∀ i, j ≤ i < k → ownedAt B N row col dr dc (opponentOf p) i.

(** The capture pattern of the specification: one or more opponent cells,
    at steps [1 .. k-1], and then a cell of [p], at step [k]. *)
Definition captures (B : Board) (N : Z) (p : Player) (row col dr dc : Z)
    (k : Z) : Prop :=
  1 < k ∧ opponentRun B N p row col dr dc 1 k ∧ ownedAt B N row col dr dc p k.

(** A move is legal when its cell is empty and some direction shows the
    capture pattern. *)
Definition legalMove (B : Board) (N : Z) (p : Player) (row col : Z) : Prop :=
  get B row col = Ret (cell None) ∧
  ∃ dr dc k, isDirection dr dc ∧ captures B N p row col dr dc k.

(** The cell [(r, c)] lies in the opponent run of a capture from
    [(row, col)], in one of the directions [ds]. *)
Definition flippedBy (B : Board) (N : Z) (p : Player) (row col : Z)
    (ds : list (Z * Z)) (r c : Z) : Prop :=
  ∃ dr dc k i, (dr, dc) ∈ ds ∧ captures B N p row col dr dc k ∧
               1 ≤ i < k ∧ r = row + i * dr ∧ c = col + i * dc.

(** The cells of a ray at steps [j .. k-1], nearest first. *)
Definition rayCells (row col dr dc j k : Z) : list (Z * Z) :=
  (λ i, (row + i * dr, col + i * dc)) <$> seqZ j (k - j).

(** The cell at [(r, c)], [null] off the grid. *)
Definition cellOf (B : Board) (r c : Z) : Cell :=
  default None (index B r ≫= λ cells, index cells c).

(** What one step of the inner loop adds. *)
Definition tally (counts : Z * Z) (x : Cell) : Z * Z :=
  match x with
  | Some black => (counts.1 + 1, counts.2)
  | Some white => (counts.1, counts.2 + 1)
  | None => counts
  end.

(** The number of cells of a list that hold [x]. *)
Definition countCell (x : Cell) (cells : list Cell) : Z :=
  Z.of_nat (length (filter (λ y, y = x) cells)).

(** The number of cells that hold a piece. *)
Definition occupied (B : Board) : Z :=
  countCell (Some black) (concat B) + countCell (Some white) (concat B).

(** All cells of the grid: rows ascending, columns ascending in a row. *)
Definition rowMajor (N : Z) : list (Z * Z) :=
  seqZ 0 N ≫= λ row, seqZ 0 N ≫= λ col, [(row, col)].

Definition rowMajorLt (a b : Z * Z) : Prop :=
  a.1 < b.1 ∨ (a.1 = b.1 ∧ a.2 < b.2).

(** The player has a legal move somewhere. *)
Definition hasMove (B : Board) (p : Player) (N : Z) : Prop :=
  ∃ row col, isValidMove B row col p N = Ret true.

(** The grid of [null]s built on line 10. *)
Definition blankBoard (N : Z) : Board :=
  replicate (Z.to_nat N) (replicate (Z.to_nat N) None).

(** The standard opening position on the 8×8 board. *)
Definition opening8 : Board :=
  let o := None in let w := Some white in let b := Some black in
  [ [o; o; o; o; o; o; o; o];
    [o; o; o; o; o; o; o; o];
    [o; o; o; o; o; o; o; o];
    [o; o; o; w; b; o; o; o];
    [o; o; o; b; w; o; o; o];
    [o; o; o; o; o; o; o; o];
    [o; o; o; o; o; o; o; o];
    [o; o; o; o; o; o; o; o] ].

(** A 4×4 position in which black, to move, can take the white piece of
    the top row; white then has no move, and black has one left. *)
Definition skipBoard : Board :=
  let o := None in let w := Some white in let b := Some black in
  [ [o; w; b; o];
    [o; o; o; o];
    [o; o; o; o];
    [b; w; o; o] ].

(** A 4×4 position in which black, to move, takes the last white piece. *)
Definition lastBoard : Board :=
  let o := None in let w := Some white in let b := Some black in
  [ [o; w; b; o];
    [o; o; o; o];
    [o; o; o; o];
    [o; o; o; o] ].

(** Outcomes that agree: both return, related results, or both stop the
    same way. *)
Definition orel {A A'} (R : A → A' → Prop) (o : outcome A) (o' : outcome A')
    : Prop :=
  match o, o' with
  | Ret a, Ret a' => R a a'
  | Throw e, Throw e' => e = e'
  | Beyond l, Beyond l' => l = l'
  | _, _ => False
  end.

(** The rows at [rows] hold the board [B]. *)
Definition shows (s : Heap.store) (rows : list Heap.loc) (B : Board) : Prop :=
  Forall2 (λ l cells, Heap.inners s !! l = Some cells) rows B.

(** The state of the copy while [makeMove] works on it: the new board
    [nb] has rows of its own, none of them an array of the store [s0] that
    [makeMove] was called in, and every array of [s0] is as it was. *)
Definition copyOf (s0 : Heap.store) (nb : Heap.loc) (B : Board)
    (s : Heap.store) : Prop :=
  ∃ rows, Heap.outers s !! nb = Some rows ∧ NoDup rows ∧ shows s rows B ∧
          (∀ l, l ∈ rows → l ∉ dom (Heap.inners s0)) ∧
          Heap.outers s0 ⊆ Heap.outers s ∧ Heap.inners s0 ⊆ Heap.inners s.

(** A store with one 8×8 board, the opening position, at reference 1; its
    rows are the arrays 1 to 8. *)
Definition openingStore : Heap.store :=
  Heap.mkStore
    {[ 1%positive := [1; 2; 3; 4; 5; 6; 7; 8]%positive ]}
    (list_to_map (zip [1; 2; 3; 4; 5; 6; 7; 8]%positive opening8)).

(** The winner that the counts give. *)
Definition verdict (black_n white_n : Z) : Winner :=
  if bool_decide (black_n > white_n) then won black
  else if bool_decide (white_n > black_n) then won white
  else tie.

(** What holds of the session of a game screen between clicks. *)
Definition sessionInv (N : Z) (st : Session) : Prop :=
  wfBoard N (board st) ∧
  (gameOver st = false →
     winner st = None ∧ hasMove (board st) (currentPlayer st) N) ∧
  (gameOver st = true →
     ¬ hasMove (board st) black N ∧ ¬ hasMove (board st) white N ∧
     winner st = Some (verdict (countCell (Some black) (concat (board st)))
                               (countCell (Some white) (concat (board st))))).

(** What holds of the application between clicks. *)
Definition appInv (a : App) : Prop :=
  (boardSize a = 6 ∨ boardSize a = 8) ∧
  match gameState a, screen a with
  | start, None => True
  | playing, Some st => sessionInv (boardSize a) st
  | _, _ => False
  end.

(** The states that clicks lead to from the first render. *)
Inductive reachable : App → Prop :=
| reachable_initial : reachable initialApp
| reachable_click a e a' :
    reachable a → fire a e = Some (Ret a') → reachable a'.

(** The application after the first click on the 8×8 button. *)
Definition appAfterSize8 : App :=
  mkApp playing 8 (Some (mkSession opening8 black false None)).

(** The two colours exchanged. *)
Definition swapCell (x : Cell) : Cell := opponentOf <$> x.

Definition swapVal (v : jsval) : jsval :=
  match v with
  | undefined => undefined
  | cell x => cell (swapCell x)
  end.

Definition swapBoard (B : Board) : Board :=
  (λ cells : list Cell, swapCell <$> cells) <$> B.




(** * Properties *)

(** ** Reading and writing boards *)

Lemma inBounds_true N r c :
  inBounds N r c = true ↔ 0 ≤ r < N ∧ 0 ≤ c < N.
Proof. unfold inBounds. rewrite !andb_true_iff. lia. Qed.

Lemma inBounds_false N r c :
  inBounds N r c = false ↔ ¬ (0 ≤ r < N ∧ 0 ≤ c < N).
Proof. rewrite <- inBounds_true. destruct (inBounds N r c); naive_solver. Qed.

Lemma index_Some {A} (xs : list A) i x :
  index xs i = Some x ↔ 0 ≤ i ∧ xs !! Z.to_nat i = Some x.
Proof. unfold index. case_bool_decide; [tauto |]. split; [done | tauto]. Qed.

Lemma index_of_nat {A} (xs : list A) (i : nat) :
  index xs (Z.of_nat i) = xs !! i.
Proof.
  unfold index. rewrite bool_decide_eq_true_2 by lia. by rewrite Nat2Z.id.
Qed.

Lemma index_None {A} (xs : list A) i :
  index xs i = None ↔ ¬ (0 ≤ i < Z.of_nat (length xs)).
Proof.
  unfold index. case_bool_decide.
  - rewrite lookup_ge_None. lia.
  - split; [lia | done].
Qed.

Lemma index_is_Some {A} (xs : list A) i :
  0 ≤ i < Z.of_nat (length xs) → is_Some (index xs i).
Proof.
  intros H. destruct (index xs i) eqn:E; [eauto |].
  apply index_None in E. lia.
Qed.

Lemma wfBoard_row N B r cells :
  wfBoard N B → index B r = Some cells → Z.of_nat (length cells) = N.
Proof.
  intros [_ Hrows] [_ Hr]%index_Some.
  rewrite Forall_lookup in Hrows. eauto.
Qed.

Lemma get_wf N B r c :
  wfBoard N B → inBounds N r c = true → ∃ x, get B r c = Ret (cell x).
Proof.
  intros Hwf [Hr Hc]%inBounds_true. unfold get.
  destruct (index_is_Some B r) as [cells Hcells]; [destruct Hwf; lia |].
  rewrite Hcells.
  destruct (index_is_Some cells c) as [x Hx].
  { rewrite (wfBoard_row _ _ _ _ Hwf Hcells). lia. }
  rewrite Hx. eauto.
Qed.

Lemma get_no_row B r c :
  ¬ (0 ≤ r < Z.of_nat (length B)) → get B r c = Throw TypeError.
Proof. intros H. unfold get. by apply index_None in H as ->. Qed.

Lemma get_no_col N B r c :
  wfBoard N B → 0 ≤ r < N → ¬ (0 ≤ c < N) → get B r c = Ret undefined.
Proof.
  intros Hwf Hr Hc. unfold get.
  destruct (index_is_Some B r) as [cells Hcells]; [destruct Hwf; lia |].
  rewrite Hcells.
  assert (index cells c = None) as ->; [| done].
  apply index_None. by rewrite (wfBoard_row _ _ _ _ Hwf Hcells).
Qed.

(** A store inside the grid succeeds, keeps the shape, and changes the one
    cell. *)
Lemma set_wf N B r c x :
  wfBoard N B → inBounds N r c = true →
  ∃ B', set B r c x = Ret B' ∧ wfBoard N B' ∧
        ∀ r' c', get B' r' c' =
                 if decide (r' = r ∧ c' = c) then Ret (cell x) else get B r' c'.
Proof.
  intros Hwf [Hr Hc]%inBounds_true. unfold set.
  destruct (index_is_Some B r) as [cells Hcells]; [destruct Hwf; lia |].
  rewrite Hcells.
  pose proof (wfBoard_row _ _ _ _ Hwf Hcells) as Hlen.
  rewrite bool_decide_eq_true_2 by lia.
  eexists; split; [done |].
  apply index_Some in Hcells as [_ Hcells].
  split.
  - destruct Hwf as [HB Hrows]. split; [by rewrite length_insert |].
    apply Forall_insert; [done |]. by rewrite length_insert.
  - intros r' c'. unfold get, index.
    case_bool_decide as Hr'; [| by rewrite decide_False by lia].
    destruct (decide (r' = r)) as [-> | Hne].
    + rewrite list_lookup_insert_eq by (apply lookup_lt_Some in Hcells; lia).
      simplify_eq. rewrite Hcells.
      case_bool_decide as Hc'; [| by rewrite decide_False by lia].
      destruct (decide (c' = c)) as [-> | Hnc].
      * rewrite list_lookup_insert_eq by lia.
        by rewrite decide_True.
      * rewrite list_lookup_insert_ne by lia.
        by rewrite decide_False by lia.
    + rewrite list_lookup_insert_ne by lia.
      by rewrite decide_False by lia.
Qed.

(** ** Directions and rays *)

Lemma directions_spec dr dc : (dr, dc) ∈ directions ↔ isDirection dr dc.
Proof.
  unfold directions, isDirection. rewrite !elem_of_cons, elem_of_nil. split.
  - intros H. repeat (destruct H as [H | H]; [simplify_eq; lia |]). done.
  - intros (Hr & Hc & Hne).
    assert (dr = -1 ∨ dr = 0 ∨ dr = 1) as Hr' by lia.
    assert (dc = -1 ∨ dc = 0 ∨ dc = 1) as Hc' by lia.
    destruct Hr' as [-> | [-> | ->]], Hc' as [-> | [-> | ->]]; try tauto; lia.
Qed.

Lemma directions_NoDup : NoDup directions.
Proof. unfold directions. by apply (bool_decide_unpack _). Qed.

Lemma directions_length : length directions = 8%nat.
Proof. reflexivity. Qed.

Lemma rayLeft_step N dr dc r c :
  isDirection dr dc → inBounds N r c = true →
  1 ≤ rayLeft N dr dc r c ≤ N ∧
  rayLeft N dr dc (r + dr) (c + dc) = rayLeft N dr dc r c - 1.
Proof.
  intros (Hr & Hc & Hne) [? ?]%inBounds_true. unfold rayLeft.
  repeat case_decide; lia.
Qed.

Lemma loopFuel_enough N dr dc r c :
  isDirection dr dc → inBounds N r c = true →
  rayLeft N dr dc r c < Z.of_nat (Engine.loopFuel N).
Proof.
  intros Hd Hin. destruct (rayLeft_step _ _ _ _ _ Hd Hin) as [? _].
  unfold Engine.loopFuel. lia.
Qed.

(** ** The capture pattern *)

Section Pattern.
Variables (B : Board) (N : Z) (p : Player) (row col dr dc : Z).

Lemma ownedAt_functional q q' i :
  ownedAt B N row col dr dc q i → ownedAt B N row col dr dc q' i → q = q'.
Proof. intros [_ H] [_ H']. congruence. Qed.

Lemma opponentOf_ne : opponentOf p ≠ p.
Proof. by destruct p. Qed.

Lemma captures_unique k k' :
  captures B N p row col dr dc k → captures B N p row col dr dc k' → k = k'.
Proof.
  intros (Hk & Hrun & Hp) (Hk' & Hrun' & Hp').
  destruct (Z.lt_trichotomy k k') as [Hlt | [-> | Hlt]]; [| done |].
  - destruct opponentOf_ne.
    apply (ownedAt_functional _ _ k); [apply Hrun'; lia | done].
  - destruct opponentOf_ne.
    apply (ownedAt_functional _ _ k'); [apply Hrun; lia | done].
Qed.

Hypothesis Hwf : wfBoard N B.
Hypothesis Hdir : isDirection dr dc.

(** The scan from step [j], having seen an opponent cell or not, answers
    whether the pattern closes at some step [k] from there. *)
Lemma scanLoop_spec fuel : ∀ j r c h,
  r = row + j * dr → c = col + j * dc →
  (inBounds N r c = true → rayLeft N dr dc r c < Z.of_nat fuel) →
  (0 < fuel)%nat →
  ∃ b, Engine.scanLoop get fuel B p (opponentOf p) N dr dc r c h = Ret b ∧
       (b = true ↔
        ∃ k, j ≤ k ∧ opponentRun B N p row col dr dc j k ∧
             ownedAt B N row col dr dc p k ∧ (h = true ∨ j < k)).
Proof.
  induction fuel as [| fuel IH]; intros j r c h Hr Hc Hfuel Hpos; [lia |].
  simpl. destruct (inBounds N r c) eqn:Hin.
  - destruct (get_wf _ _ _ _ Hwf Hin) as [x Hx]. rewrite Hx. simpl.
    destruct (rayLeft_step _ _ _ _ _ Hdir Hin) as [Hleft Hnext].
    specialize (Hfuel eq_refl).
    assert (ownedAt_j : ∀ q, x = Some q → ownedAt B N row col dr dc q j).
    { intros q ->. unfold ownedAt. by rewrite <- Hr, <- Hc. }
    destruct x as [q |]; simpl.
    + case_bool_decide as Hq; [subst q |].
      * destruct (IH (j + 1) (r + dr) (c + dc) true) as (b & -> & Hb);
          [lia | lia | lia | lia |].
        exists b. split; [done |]. rewrite Hb. split.
        -- intros (k & Hk & Hrun & Hown & _). exists k.
           split_and!; [lia | | done | right; lia].
           intros i Hi. destruct (decide (i = j)) as [-> | ?]; [eauto |].
           apply Hrun. lia.
        -- intros (k & Hk & Hrun & Hown & _).
           destruct (decide (k = j)) as [-> | ?].
           { destruct opponentOf_ne.
             apply (ownedAt_functional _ _ j); [by apply ownedAt_j | done]. }
           exists k. split_and!; [lia | | done | by left].
           intros i Hi. apply Hrun. lia.
      * case_bool_decide as Hp; [subst q |]; simpl.
        -- destruct h.
           ++ exists true. split; [done |]. split; [| done]. intros _.
              exists j. split_and!; [lia | | eauto | by left].
              intros i Hi. lia.
           ++ exists false. split; [done |]. split; [done |].
              intros (k & Hk & Hrun & Hown & [? | Hlt]); [done |].
              destruct Hq.
              apply (ownedAt_functional _ _ j);
                [by apply ownedAt_j | apply Hrun; lia].
        -- exists false. split; [done |]. split; [done |].
           intros (k & Hk & Hrun & Hown & Hh).
           destruct (decide (k = j)) as [-> | ?].
           ++ destruct Hp.
              apply (ownedAt_functional _ _ j); [by apply ownedAt_j | done].
           ++ destruct Hq.
              apply (ownedAt_functional _ _ j);
                [by apply ownedAt_j | apply Hrun; lia].
    + exists false. split; [done |]. split; [done |].
      intros (k & Hk & Hrun & Hown & Hh).
      assert (ownedAt_none : ∀ q, ¬ ownedAt B N row col dr dc q j).
      { intros q [_ Hg]. rewrite <- Hr, <- Hc in Hg. congruence. }
      destruct (decide (k = j)) as [-> | ?]; [by destruct (ownedAt_none p) |].
      destruct (ownedAt_none (opponentOf p)). apply Hrun. lia.
  - exists false. split; [done |]. split; [done |].
    intros (k & Hk & Hrun & Hown & Hh).
    assert (ownedAt_out : ∀ q, ¬ ownedAt B N row col dr dc q j).
    { intros q [Hg _]. rewrite <- Hr, <- Hc in Hg. congruence. }
    destruct (decide (k = j)) as [-> | ?]; [by destruct (ownedAt_out p) |].
    destruct (ownedAt_out (opponentOf p)). apply Hrun. lia.
Qed.

(** One direction of [isValidMove]: the walk finds the pattern exactly
    when it is there. *)
Lemma scanLoop_captures :
  ∃ b, Engine.scanLoop get (Engine.loopFuel N) B p (opponentOf p) N dr dc
         (row + dr) (col + dc) false = Ret b ∧
       (b = true ↔ ∃ k, captures B N p row col dr dc k).
Proof.
  destruct (scanLoop_spec (Engine.loopFuel N) 1 (row + dr) (col + dc) false)
    as (b & Hb & Hiff);
    [lia | lia | by apply loopFuel_enough | unfold Engine.loopFuel; lia |].
  exists b. split; [done |]. rewrite Hiff. unfold captures.
  split; intros (k & H); exists k; intuition lia.
Qed.
End Pattern.

(** ** [isValidMove] *)

Lemma scanDirections_spec B N p row col ds :
  wfBoard N B →
  (∀ dr dc, (dr, dc) ∈ ds → isDirection dr dc) →
  ∃ b, Engine.scanDirections get ds B row col p (opponentOf p) N = Ret b ∧
       (b = true ↔
        ∃ dr dc k, (dr, dc) ∈ ds ∧ captures B N p row col dr dc k).
Proof.
  intros Hwf. induction ds as [| [dr dc] ds IH]; intros Hds.
  - exists false. split; [done |]. split; [done |].
    intros (dr & dc & k & []%elem_of_nil & _).
  - cbn [Engine.scanDirections].
    destruct (scanLoop_captures B N p row col dr dc Hwf) as (b & -> & Hb).
    { apply Hds. left. }
    simpl. destruct b.
    + exists true. split; [done |]. split; [| done]. intros _.
      destruct Hb as [(k & Hk) _]; [done |].
      exists dr, dc, k. split; [left | done].
    + destruct IH as (b & -> & Hiff).
      { intros ?? Hin. apply Hds. by right. }
      exists b. split; [done |]. rewrite Hiff. split.
      * intros (dr' & dc' & k & Hin & Hk). exists dr', dc', k. split; [by right | done].
      * intros (dr' & dc' & k & [Heq | Hin]%elem_of_cons & Hk).
        -- simplify_eq. assert (false = true); [| done]. apply Hb. eauto.
        -- eauto 6.
Qed.

(** [isValidMove] answers, when the row exists; the column may be any
    integer. *)
Lemma isValidMove_spec B N p row col :
  wfBoard N B → 0 ≤ row < N →
  ∃ b, isValidMove B row col p N = Ret b ∧ (b = true ↔ legalMove B N p row col).
Proof.
  intros Hwf Hrow. unfold isValidMove, Engine.isValidMove, legalMove.
  destruct (decide (0 ≤ col < N)) as [Hcol | Hcol].
  - destruct (get_wf N B row col Hwf) as [x ->]; [by apply inBounds_true |].
    cbn [mbind outcome_bind]. destruct x as [q |]; cbn [notNull].
    + exists false. split; [done |]. split; [done |]. by intros [? _].
    + destruct (scanDirections_spec B N p row col directions Hwf) as (b & -> & Hb).
      { intros ??. apply directions_spec. }
      exists b. split; [done |]. rewrite Hb. split.
      * intros (dr & dc & k & ?%directions_spec & ?). eauto 6.
      * intros (_ & dr & dc & k & ?%directions_spec & ?). eauto 6.
  - rewrite (get_no_col N) by done. simpl.
    exists false. split; [done |]. split; [done |]. by intros [? _].
Qed.

Lemma isValidMove_true B N p row col :
  wfBoard N B → isValidMove B row col p N = Ret true →
  0 ≤ row < N ∧ legalMove B N p row col.
Proof.
  intros Hwf Hv.
  assert (0 ≤ row < N) as Hrow.
  { destruct (decide (0 ≤ row < N)); [done |].
    unfold isValidMove, Engine.isValidMove in Hv.
    rewrite get_no_row in Hv; [done | destruct Hwf; lia]. }
  split; [done |].
  destruct (isValidMove_spec B N p row col Hwf Hrow) as (b & Hb & Hiff).
  apply Hiff. congruence.
Qed.

Lemma legalMove_inBounds B N p row col :
  wfBoard N B → legalMove B N p row col → inBounds N row col = true.
Proof.
  intros Hwf [Hget _]. apply inBounds_true.
  destruct (decide (0 ≤ row < N)) as [Hrow | Hrow].
  - split; [done |]. destruct (decide (0 ≤ col < N)); [done |].
    by rewrite (get_no_col N) in Hget.
  - rewrite get_no_row in Hget; [done | destruct Hwf; lia].
Qed.

Lemma opening8_wf : wfBoard 8 opening8.
Proof. split; [reflexivity | repeat constructor]. Defined.

(** C1. On an N×N board and an in-bounds cell, [isValidMove] returns false
    when the cell is not empty; when it is empty it returns a boolean that
    is true exactly when one of the eight directions shows, from the cell
    outward, one or more opponent cells and then a cell of the player. *)
Theorem isValidMove_correct B N p row col :
  wfBoard N B → inBounds N row col = true →
  (get B row col ≠ Ret (cell None) → isValidMove B row col p N = Ret false) ∧
  (get B row col = Ret (cell None) →
   ∃ b, isValidMove B row col p N = Ret b ∧
        (b = true ↔
         ∃ dr dc k, isDirection dr dc ∧ captures B N p row col dr dc k)).
Proof.
  intros Hwf [Hrow Hcol]%inBounds_true.
  destruct (isValidMove_spec B N p row col Hwf Hrow) as (b & Hb & Hiff).
  unfold legalMove in Hiff. split.
  - intros Hne. destruct b; [| done]. destruct Hiff as [[? _] _]; done.
  - intros Hempty. exists b. split; [done |]. rewrite Hiff. tauto.
Qed.

Lemma isValidMove_correct_witness :
  (get opening8 2 3 ≠ Ret (cell None) →
   isValidMove opening8 2 3 black 8 = Ret false) ∧
  (get opening8 2 3 = Ret (cell None) →
   ∃ b, isValidMove opening8 2 3 black 8 = Ret b ∧
        (b = true ↔
         ∃ dr dc k, isDirection dr dc ∧ captures opening8 8 black 2 3 dr dc k)).
Proof.
  apply (isValidMove_correct opening8 8 black 2 3);
    [exact opening8_wf | reflexivity].
Defined.

(** ** [makeMove] on an illegal move *)

(** C3. When [isValidMove] returns false, [makeMove] returns the board it
    was given, and raises nothing. *)
Theorem makeMove_illegal B N p row col :
  isValidMove B row col p N = Ret false →
  makeMove B row col p N = Ret B.
Proof. intros Hv. unfold makeMove. by rewrite Hv. Qed.

Lemma makeMove_illegal_witness : makeMove opening8 0 0 black 8 = Ret opening8.
Proof.
  apply (makeMove_illegal opening8 8 black 0 0). reflexivity.
Defined.

(** ** Counted loops *)

(** A loop whose body always returns is a left fold. *)
Lemma forEachM_fold {A} (idxs : list Z) (body : Z → A → outcome A)
    (F : A → Z → A) (acc : A) :
  (∀ i a, i ∈ idxs → body i a = Ret (F a i)) →
  Engine.forEachM idxs body acc = Ret (foldl F acc idxs).
Proof.
  revert acc. induction idxs as [| i idxs IH]; intros acc Hbody; [done |].
  cbn [Engine.forEachM foldl]. rewrite Hbody by left.
  cbn [mbind outcome_bind]. apply IH. intros ???. apply Hbody. by right.
Qed.

(** Folding over the indices of a list, reading each element, is folding
    over the list. *)
Lemma foldl_seqZ_lookup {A X} (G : A → Z → A) (F : A → X → A) (xs : list X) :
  ∀ m acc,
  (∀ i x a, xs !! i = Some x → G a (m + Z.of_nat i) = F a x) →
  foldl G acc (seqZ m (Z.of_nat (length xs))) = foldl F acc xs.
Proof.
  induction xs as [| x xs IH]; intros m acc HG; [done |].
  rewrite seqZ_cons by (cbn [length]; lia). cbn [foldl length].
  replace (Z.pred (Z.of_nat (S (length xs)))) with (Z.of_nat (length xs)) by lia.
  rewrite <- (HG 0%nat x acc eq_refl). rewrite Z.add_0_r.
  apply IH. intros i y a Hy. rewrite <- (HG (S i) y a Hy). f_equal. lia.
Qed.

Lemma get_cellOf N B r c :
  wfBoard N B → inBounds N r c = true → get B r c = Ret (cell (cellOf B r c)).
Proof.
  intros Hwf Hin. destruct (get_wf N B r c Hwf Hin) as [x Hx].
  rewrite Hx. unfold get, cellOf in *.
  destruct (index B r) as [cells |]; [| done]. simpl.
  destruct (index cells c); simplify_eq; done.
Qed.

Lemma cellOf_lookup B r c cells x :
  B !! r = Some cells → cells !! c = Some x →
  cellOf B (Z.of_nat r) (Z.of_nat c) = x.
Proof.
  intros Hr Hc. unfold cellOf.
  rewrite index_of_nat, Hr. simpl. by rewrite index_of_nat, Hc.
Qed.

(** ** [countPieces] *)

Lemma countCell_nil x : countCell x [] = 0.
Proof. done. Qed.

Lemma countCell_cons x y cells :
  countCell x (y :: cells) =
  (if decide (y = x) then 1 else 0) + countCell x cells.
Proof.
  unfold countCell. rewrite filter_cons.
  case_decide; cbn [length]; lia.
Qed.

Lemma countCell_app x cells1 cells2 :
  countCell x (cells1 ++ cells2) = countCell x cells1 + countCell x cells2.
Proof. unfold countCell. rewrite filter_app, length_app. lia. Qed.

Lemma foldl_tally cells : ∀ counts,
  foldl tally counts cells =
  (counts.1 + countCell (Some black) cells,
   counts.2 + countCell (Some white) cells).
Proof.
  induction cells as [| x cells IH]; intros [b w].
  - rewrite !countCell_nil. cbn. f_equal; lia.
  - cbn [foldl]. rewrite IH, !countCell_cons.
    destruct x as [[] |]; cbn; f_equal; repeat case_decide; simplify_eq; lia.
Qed.

Lemma countCell_total cells :
  countCell (Some black) cells + countCell (Some white) cells
  + countCell None cells = Z.of_nat (length cells).
Proof.
  induction cells as [| x cells IH]; [done |].
  rewrite !countCell_cons. cbn [length].
  destruct x as [[] |]; repeat case_decide; simplify_eq; lia.
Qed.

Lemma wfBoard_cells N B :
  wfBoard N B → Z.of_nat (length (concat B)) = N * N.
Proof.
  intros [Hlen Hrows]. rewrite <- Hlen at 1. clear Hlen.
  induction Hrows as [| cells B' Hc Hrows IH]; [done |].
  cbn [concat length]. rewrite length_app. nia.
Qed.

Lemma countPieces_fold N B :
  wfBoard N B → countPieces B N = Ret (foldl tally (0, 0) (concat B)).
Proof.
  intros Hwf. unfold countPieces, Engine.countPieces, Engine.forRange.
  rewrite (forEachM_fold _ _
    (λ counts row, foldl (λ a col, tally a (cellOf B row col)) counts (seqZ 0 N))).
  - f_equal. destruct Hwf as [Hlen Hrows]. rewrite <- Hlen at 1.
    generalize (0, 0). intros acc.
    rewrite (foldl_seqZ_lookup _ (foldl tally) B).
    + clear Hlen. revert acc.
      induction Hrows as [| cells B' _ _ IH]; intros acc; [done |].
      cbn [concat foldl]. by rewrite foldl_app, IH.
    + intros i cells a Hi. rewrite Z.add_0_l.
      rewrite Forall_lookup in Hrows. rewrite <- (Hrows _ _ Hi).
      apply foldl_seqZ_lookup. intros j x a' Hj. rewrite Z.add_0_l.
      f_equal. by eapply cellOf_lookup.
  - intros row counts Hrow%elem_of_seqZ. apply forEachM_fold.
    intros col [b w] Hcol%elem_of_seqZ.
    rewrite (get_cellOf N) by (done || apply inBounds_true; lia).
    cbn [mbind outcome_bind].
    destruct (cellOf B row col) as [[] |]; done.
Qed.



(** ** [getValidMoves] *)

Lemma elem_of_rowMajor N row col :
  (row, col) ∈ rowMajor N ↔ inBounds N row col = true.
Proof.
  unfold rowMajor. rewrite inBounds_true, list_elem_of_bind. split.
  - intros (r & (c & Hrc%list_elem_of_singleton & Hc%elem_of_seqZ)%list_elem_of_bind
              & Hr%elem_of_seqZ).
    simplify_eq. lia.
  - intros [Hr Hc]. exists row. split; [| apply elem_of_seqZ; lia].
    apply list_elem_of_bind. exists col.
    split; [by apply list_elem_of_singleton | apply elem_of_seqZ; lia].
Qed.

Lemma StronglySorted_seqZ m n : StronglySorted Z.lt (seqZ m n).
Proof.
  remember (Z.to_nat n) as k eqn:Hk. revert m n Hk.
  induction k as [| k IH]; intros m n Hk.
  - rewrite seqZ_nil by lia. constructor.
  - rewrite seqZ_cons by lia. constructor; [apply IH; lia |].
    apply Forall_seqZ. lia.
Qed.

Lemma StronglySorted_bind {X Y} (R' : relation X) (R : relation Y)
    (g : X → list Y) (xs : list X) :
  StronglySorted R' xs →
  (∀ x, x ∈ xs → StronglySorted R (g x)) →
  (∀ x x' y y', R' x x' → y ∈ g x → y' ∈ g x' → R y y') →
  StronglySorted R (xs ≫= g).
Proof.
  intros Hxs Hg Hcross. induction Hxs as [| x xs Hxs IH Hall]; [constructor |].
  rewrite bind_cons. apply StronglySorted_app. split_and!.
  - intros y y' Hy (x' & Hy' & Hx')%list_elem_of_bind.
    rewrite Forall_forall in Hall. eapply Hcross; [| done | done]. by apply Hall.
  - apply Hg. left.
  - apply IH. intros ??. apply Hg. by right.
Qed.

Lemma StronglySorted_rowMajor N : StronglySorted rowMajorLt (rowMajor N).
Proof.
  unfold rowMajor. apply (StronglySorted_bind Z.lt); [apply StronglySorted_seqZ | |].
  - intros row _. apply (StronglySorted_bind Z.lt); [apply StronglySorted_seqZ | |].
    + intros col _. repeat constructor.
    + intros c c' y y' Hlt ->%list_elem_of_singleton ->%list_elem_of_singleton.
      right. done.
  - intros r r' y y' Hlt (c & ->%list_elem_of_singleton & _)%list_elem_of_bind
                         (c' & ->%list_elem_of_singleton & _)%list_elem_of_bind.
    by left.
Qed.

Lemma StronglySorted_filter {X} (R : relation X) (P : X → Prop)
    `{∀ x, Decision (P x)} (xs : list X) :
  StronglySorted R xs → StronglySorted R (filter P xs).
Proof.
  induction 1 as [| x xs Hxs IH Hall]; [constructor |].
  rewrite filter_cons. case_decide; [| done].
  constructor; [done |]. rewrite Forall_forall in *.
  intros y [_ Hy]%list_elem_of_filter. by apply Hall.
Qed.

(** Collecting, in a loop, the elements that pass a test. *)
Lemma foldl_collect {X Y} (P : Y → Prop) `{∀ y, Decision (P y)}
    (g : X → list Y) (xs : list X) : ∀ acc,
  foldl (λ acc x, acc ++ filter P (g x)) acc xs = acc ++ filter P (xs ≫= g).
Proof.
  induction xs as [| x xs IH]; intros acc.
  - by rewrite app_nil_r.
  - cbn [foldl]. rewrite IH, bind_cons, filter_app. by rewrite app_assoc.
Qed.

Lemma getValidMoves_filter B p N :
  wfBoard N B →
  getValidMoves B p N =
    Ret (filter (λ rc, isValidMove B rc.1 rc.2 p N = Ret true) (rowMajor N)).
Proof.
  intros Hwf. unfold getValidMoves, Engine.getValidMoves, Engine.forRange.
  set (P := λ rc : Z * Z, isValidMove B rc.1 rc.2 p N = Ret true).
  rewrite (forEachM_fold _ _
    (λ moves row, moves ++ filter P (seqZ 0 N ≫= λ col, [(row, col)]))).
  - f_equal. by rewrite (foldl_collect P).
  - intros row moves Hrow%elem_of_seqZ.
    rewrite (forEachM_fold _ _ (λ moves col, moves ++ filter P [(row, col)])).
    + f_equal. by rewrite (foldl_collect P (λ col, [(row, col)])).
    + intros col acc _.
      destruct (isValidMove_spec B N p row col Hwf) as (b & Hb & _); [lia |].
      fold (isValidMove B row col p N). rewrite Hb. cbn [mbind outcome_bind].
      rewrite filter_cons, filter_nil. destruct b.
      * by rewrite decide_True.
      * rewrite decide_False; [by rewrite app_nil_r |].
        unfold P. cbn [fst snd]. congruence.
Qed.

Lemma elem_of_validMoves B p N :
  wfBoard N B → ∀ row col,
  (row, col) ∈ filter (λ rc, isValidMove B rc.1 rc.2 p N = Ret true) (rowMajor N)
  ↔ isValidMove B row col p N = Ret true.
Proof.
  intros Hwf row col. rewrite list_elem_of_filter, elem_of_rowMajor. cbn [fst snd].
  split; [tauto |]. intros Hv. split; [done |].
  apply (legalMove_inBounds B N p); [done |].
  by apply isValidMove_true.
Qed.



(** ** [createInitialBoard] *)

Lemma mapM_replicate_ret {X Y} (n : nat) (x : X) (y : Y) :
  mapM (M := outcome) (λ _, Ret y) (replicate n x) = Ret (replicate n y).
Proof.
  induction n as [| n IH]; [done |].
  cbn [replicate mapM]. cbn [mbind outcome_bind]. rewrite IH. done.
Qed.

Lemma blankBoard_wf N : 0 ≤ N → wfBoard N (blankBoard N).
Proof.
  intros HN. unfold blankBoard. split.
  - rewrite length_replicate. lia.
  - apply Forall_replicate. rewrite length_replicate. lia.
Qed.

Lemma blankBoard_get N r c :
  inBounds N r c = true → get (blankBoard N) r c = Ret (cell None).
Proof.
  intros [Hr Hc]%inBounds_true. unfold get, blankBoard, index.
  rewrite bool_decide_eq_true_2 by lia.
  rewrite lookup_replicate_2 by lia.
  rewrite bool_decide_eq_true_2 by lia.
  by rewrite lookup_replicate_2 by lia.
Qed.

Lemma createInitialBoard_blank N :
  0 ≤ N ≤ maxArrayLength → Z.even N = true →
  createInitialBoard N =
    (let center := N / 2 in
     board ← set (blankBoard N) (center - 1) (center - 1) (Some white);
     board ← set board (center - 1) center (Some black);
     board ← set board center (center - 1) (Some black);
     set board center center (Some white)).
Proof.
  intros HN Heven. unfold createInitialBoard, newArray.
  rewrite bool_decide_eq_true_2 by done. cbn [mbind outcome_bind].
  rewrite mapM_replicate_ret. cbn [mbind outcome_bind]. by rewrite Heven.
Qed.

(** A board is returned only for a size that an array can have. *)
Lemma createInitialBoard_size N B :
  createInitialBoard N = Ret B → 0 ≤ N ≤ maxArrayLength.
Proof.
  unfold createInitialBoard, newArray. by case_bool_decide.
Qed.

Lemma even_half N : Z.even N = true → N = 2 * (N / 2).
Proof.
  intros Heven. pose proof (Z.div_mod N 2) as Hdiv.
  rewrite Zmod_even, Heven in Hdiv. lia.
Qed.

(** The four centre cells and nothing else, for any even size from 2 up
    that an array can have. *)
Lemma createInitialBoard_cells N :
  Z.even N = true → 2 ≤ N ≤ maxArrayLength →
  ∃ B, createInitialBoard N = Ret B ∧ wfBoard N B ∧
    ∀ r c, inBounds N r c = true →
      get B r c =
        Ret (cell (if decide (r = N / 2 ∧ c = N / 2) then Some white
                   else if decide (r = N / 2 ∧ c = N / 2 - 1) then Some black
                   else if decide (r = N / 2 - 1 ∧ c = N / 2) then Some black
                   else if decide (r = N / 2 - 1 ∧ c = N / 2 - 1) then Some white
                   else None)).
Proof.
  intros Heven HN. rewrite createInitialBoard_blank by (done || lia).
  pose proof (even_half N Heven) as Hhalf.
  cbv zeta. set (center := N / 2) in *.
  destruct (set_wf N (blankBoard N) (center - 1) (center - 1) (Some white))
    as (B1 & -> & Hwf1 & Hget1);
    [apply blankBoard_wf; lia | apply inBounds_true; lia |].
  cbn [mbind outcome_bind].
  destruct (set_wf N B1 (center - 1) center (Some black))
    as (B2 & -> & Hwf2 & Hget2); [done | apply inBounds_true; lia |].
  cbn [mbind outcome_bind].
  destruct (set_wf N B2 center (center - 1) (Some black))
    as (B3 & -> & Hwf3 & Hget3); [done | apply inBounds_true; lia |].
  cbn [mbind outcome_bind].
  destruct (set_wf N B3 center center (Some white))
    as (B4 & -> & Hwf4 & Hget4); [done | apply inBounds_true; lia |].
  exists B4. split_and!; [done | done |].
  intros r c Hin. rewrite Hget4, Hget3, Hget2, Hget1, blankBoard_get by done.
  repeat case_decide; done.
Qed.

(** C8. For every even N ≥ 4 that is the length of an array (N ≤ 2^32 - 1)
    the initial board is N×N, its four centre cells are white (top-left,
    bottom-right) and black (top-right, bottom-left), and every other cell
    is empty.  For N = 8 these are the cells (3,3), (3,4), (4,3), (4,4); 60
    cells are empty and [countPieces] gives 2 and 2. *)
Theorem createInitialBoard_correct N :
  Z.even N = true → 4 ≤ N ≤ maxArrayLength →
  ∃ B, createInitialBoard N = Ret B ∧ wfBoard N B ∧
    get B (N / 2 - 1) (N / 2 - 1) = Ret (cell (Some white)) ∧
    get B (N / 2 - 1) (N / 2) = Ret (cell (Some black)) ∧
    get B (N / 2) (N / 2 - 1) = Ret (cell (Some black)) ∧
    get B (N / 2) (N / 2) = Ret (cell (Some white)) ∧
    (∀ r c, inBounds N r c = true →
       ¬ ((r = N / 2 - 1 ∨ r = N / 2) ∧ (c = N / 2 - 1 ∨ c = N / 2)) →
       get B r c = Ret (cell None)) ∧
    (N = 8 →
       get B 3 3 = Ret (cell (Some white)) ∧
       get B 3 4 = Ret (cell (Some black)) ∧
       get B 4 3 = Ret (cell (Some black)) ∧
       get B 4 4 = Ret (cell (Some white)) ∧
       countCell None (concat B) = 60 ∧
       countPieces B 8 = Ret (2, 2)).
Proof.
  intros Heven HN.
  destruct (createInitialBoard_cells N Heven) as (B & HB & Hwf & Hget); [lia |].
  pose proof (even_half N Heven) as Hhalf.
  exists B. split_and!; [done | done | | | | | |].
  - rewrite Hget by (apply inBounds_true; lia). repeat case_decide; done || lia.
  - rewrite Hget by (apply inBounds_true; lia). repeat case_decide; done || lia.
  - rewrite Hget by (apply inBounds_true; lia). repeat case_decide; done || lia.
  - rewrite Hget by (apply inBounds_true; lia). repeat case_decide; done || lia.
  - intros r c Hin Hout. rewrite Hget by done. repeat case_decide; done || lia.
  - intros ->. vm_compute in HB. simplify_eq. by vm_compute.
Qed.

Lemma createInitialBoard_correct_witness :
  ∃ B, createInitialBoard 8 = Ret B ∧ wfBoard 8 B ∧
    get B (8 / 2 - 1) (8 / 2 - 1) = Ret (cell (Some white)) ∧
    get B (8 / 2 - 1) (8 / 2) = Ret (cell (Some black)) ∧
    get B (8 / 2) (8 / 2 - 1) = Ret (cell (Some black)) ∧
    get B (8 / 2) (8 / 2) = Ret (cell (Some white)) ∧
    (∀ r c, inBounds 8 r c = true →
       ¬ ((r = 8 / 2 - 1 ∨ r = 8 / 2) ∧ (c = 8 / 2 - 1 ∨ c = 8 / 2)) →
       get B r c = Ret (cell None)) ∧
    (8 = 8 →
       get B 3 3 = Ret (cell (Some white)) ∧
       get B 3 4 = Ret (cell (Some black)) ∧
       get B 4 3 = Ret (cell (Some black)) ∧
       get B 4 4 = Ret (cell (Some white)) ∧
       countCell None (concat B) = 60 ∧
       countPieces B 8 = Ret (2, 2)).
Proof.
  apply (createInitialBoard_correct 8);
    [reflexivity | unfold maxArrayLength; lia].
Defined.

(** The claim as the specification has it, for every even N ≥ 4, fails at
    N = 2^32: [Array(size)] raises a [RangeError] and there is no board. *)
Lemma createInitialBoard_raises_beyond_limit :
  Z.even 4294967296 = true ∧ 4 ≤ 4294967296 ∧
  createInitialBoard 4294967296 = Throw RangeError.
Proof. split_and!; [reflexivity | lia | reflexivity]. Qed.

(** Whatever the size, [createInitialBoard] returns or raises. *)
Lemma createInitialBoard_within_model size l :
  createInitialBoard size ≠ Beyond l.
Proof.
  destruct (decide (0 ≤ size ≤ maxArrayLength)) as [Hpos | Hneg].
  - destruct (Z.even size) eqn:Heven.
    + destruct (decide (2 ≤ size)) as [Hbig | Hsmall].
      * by destruct (createInitialBoard_cells size Heven) as (B & -> & _);
          [lia |].
      * assert (size = 0 ∨ size = 1) as [-> | ->] by lia; done.
    + unfold createInitialBoard, newArray.
      rewrite bool_decide_eq_true_2 by done. cbn [mbind outcome_bind].
      rewrite mapM_replicate_ret. cbn [mbind outcome_bind]. by rewrite Heven.
  - unfold createInitialBoard, newArray. by rewrite bool_decide_eq_false_2.
Qed.

(** ** The flips of [makeMove] *)

(** Two rays from the same origin share no cell. *)
Lemma ray_disjoint dr dc dr' dc' i i' :
  isDirection dr dc → isDirection dr' dc' → 1 ≤ i → 1 ≤ i' →
  i * dr = i' * dr' → i * dc = i' * dc' →
  dr = dr' ∧ dc = dc' ∧ i = i'.
Proof.
  intros (Hr & Hc & Hne) (Hr' & Hc' & Hne') Hi Hi' Her Hec.
  assert (dr = -1 ∨ dr = 0 ∨ dr = 1) as Hdr by lia.
  assert (dc = -1 ∨ dc = 0 ∨ dc = 1) as Hdc by lia.
  assert (dr' = -1 ∨ dr' = 0 ∨ dr' = 1) as Hdr' by lia.
  assert (dc' = -1 ∨ dc' = 0 ∨ dc' = 1) as Hdc' by lia.
  destruct Hdr as [-> | [-> | ->]], Hdc as [-> | [-> | ->]],
           Hdr' as [-> | [-> | ->]], Hdc' as [-> | [-> | ->]]; lia.
Qed.

Lemma rayCells_nil row col dr dc j : rayCells row col dr dc j j = [].
Proof. unfold rayCells. by rewrite seqZ_nil by lia. Qed.

Lemma rayCells_snoc row col dr dc j k :
  j ≤ k →
  rayCells row col dr dc j (k + 1) =
  rayCells row col dr dc j k ++ [(row + k * dr, col + k * dc)].
Proof.
  intros Hjk. unfold rayCells.
  replace (k + 1 - j) with ((k - j) + 1) by lia.
  rewrite seqZ_app, fmap_app by lia.
  replace (j + (k - j)) with k by lia. done.
Qed.

Lemma elem_of_rayCells row col dr dc j k r c :
  (r, c) ∈ rayCells row col dr dc j k ↔
  ∃ i, j ≤ i < k ∧ r = row + i * dr ∧ c = col + i * dc.
Proof.
  unfold rayCells. rewrite list_elem_of_fmap. split.
  - intros (i & Heq & Hi%elem_of_seqZ). exists i. simplify_eq. split; [lia | done].
  - intros (i & Hi & -> & ->). exists i. split; [done |]. apply elem_of_seqZ. lia.
Qed.

Lemma length_rayCells row col dr dc j k :
  length (rayCells row col dr dc j k) = Z.to_nat (k - j).
Proof. unfold rayCells. by rewrite length_fmap, length_seqZ. Qed.

(** Storing [p] into cells of the grid, one after the other. *)
Lemma flipAll_spec N p cells : ∀ M,
  wfBoard N M →
  (∀ r c, (r, c) ∈ cells → inBounds N r c = true) →
  ∃ M', Engine.flipAll set M cells p = Ret M' ∧ wfBoard N M' ∧
        ∀ r c, get M' r c =
               if decide ((r, c) ∈ cells) then Ret (cell (Some p)) else get M r c.
Proof.
  induction cells as [| [fr fc] cells IH]; intros M Hwf Hin.
  - exists M. split_and!; [done | done |]. intros r c.
    rewrite decide_False; [done | apply not_elem_of_nil].
  - cbn [Engine.flipAll].
    destruct (set_wf N M fr fc (Some p) Hwf) as (M1 & -> & Hwf1 & Hget1).
    { apply Hin. left. }
    cbn [mbind outcome_bind].
    destruct (IH M1 Hwf1) as (M' & -> & Hwf' & Hget').
    { intros ???. apply Hin. by right. }
    exists M'. split_and!; [done | done |]. intros r c.
    rewrite Hget', Hget1.
    destruct (decide ((r, c) ∈ cells)) as [Hrc | Hrc].
    + rewrite decide_True; [done | by right].
    + destruct (decide (r = fr ∧ c = fc)) as [[-> ->] | Hne].
      * rewrite decide_True; [done | left].
      * rewrite decide_False; [done |].
        intros [? | ?]%elem_of_cons; simplify_eq; tauto.
Qed.

Section FlipLoop.
Variables (M : Board) (N : Z) (p : Player) (row col dr dc : Z).
Hypothesis Hwf : wfBoard N M.
Hypothesis Hdir : isDirection dr dc.

(** The walk of [makeMove] from step [j], with the opponent cells of steps
    [1 .. j-1] collected: when the pattern closes, at step [k], the cells
    of steps [1 .. k-1] are flipped; when it does not, nothing is. *)
Lemma flipLoop_spec fuel : ∀ j r c,
  r = row + j * dr → c = col + j * dc → 1 ≤ j →
  (inBounds N r c = true → rayLeft N dr dc r c < Z.of_nat fuel) →
  (0 < fuel)%nat →
  opponentRun M N p row col dr dc 1 j →
  let run := Engine.flipLoop get set fuel M p (opponentOf p) N dr dc r c
               (rayCells row col dr dc 1 j) in
  (∃ k, captures M N p row col dr dc k ∧
        run = Engine.flipAll set M (rayCells row col dr dc 1 k) p) ∨
  ((∀ k, ¬ captures M N p row col dr dc k) ∧ run = Ret M).
Proof.
  induction fuel as [| fuel IH]; intros j r c Hr Hc Hj Hfuel Hpos Hrun; [lia |].
  assert (Hlater : ∀ k, captures M N p row col dr dc k → j ≤ k).
  { intros k (Hk & Hrunk & Hown). destruct (decide (j ≤ k)); [done |].
    destruct (opponentOf_ne p).
    apply (ownedAt_functional M N row col dr dc _ _ k); [apply Hrun; lia | done]. }
  cbn [Engine.flipLoop]. cbv zeta. destruct (inBounds N r c) eqn:Hin.
  - destruct (get_wf _ _ _ _ Hwf Hin) as [x Hx]. rewrite Hx.
    cbn [mbind outcome_bind].
    destruct (rayLeft_step _ _ _ _ _ Hdir Hin) as [Hleft Hnext].
    specialize (Hfuel eq_refl).
    assert (ownedAt_j : ∀ q, x = Some q → ownedAt M N row col dr dc q j).
    { intros q ->. unfold ownedAt. by rewrite <- Hr, <- Hc. }
    assert (Hat_j : ∀ q, ownedAt M N row col dr dc q j → x = Some q).
    { intros q [_ Hq]. rewrite <- Hr, <- Hc in Hq. congruence. }
    destruct x as [q |]; cbn [isPlayer].
    + case_bool_decide as Hq; [subst q |].
      * replace (rayCells row col dr dc 1 j ++ [(r, c)])
          with (rayCells row col dr dc 1 (j + 1))
          by (rewrite rayCells_snoc by done; by subst).
        apply (IH (j + 1) (r + dr) (c + dc)); [lia | lia | lia | lia | lia |].
        intros i Hi. destruct (decide (i = j)) as [-> | ?]; [eauto |].
        apply Hrun. lia.
      * case_bool_decide as Hp; [subst q |]; cbn [andb].
        -- rewrite length_rayCells. case_bool_decide as Hlen.
           ++ left. exists j. split; [| done].
              split_and!; [lia | done | eauto].
           ++ right. split; [| done]. intros k Hk.
              pose proof (Hlater k Hk) as Hjk. destruct Hk as (Hk & Hrunk & Hown).
              destruct (decide (k = j)) as [-> | ?]; [lia |].
              destruct Hq. apply Some_inj, Hat_j, Hrunk. lia.
        -- right. split; [| done]. intros k Hk.
           pose proof (Hlater k Hk) as Hjk. destruct Hk as (Hk & Hrunk & Hown).
           destruct (decide (k = j)) as [-> | ?].
           ++ destruct Hp. by apply Some_inj, Hat_j.
           ++ destruct Hq. apply Some_inj, Hat_j, Hrunk. lia.
    + right. split; [| done]. intros k Hk.
      pose proof (Hlater k Hk) as Hjk. destruct Hk as (Hk & Hrunk & Hown).
      destruct (decide (k = j)) as [-> | ?].
      * by specialize (Hat_j _ Hown).
      * assert (ownedAt M N row col dr dc (opponentOf p) j) as Hopp
          by (apply Hrunk; lia).
        by specialize (Hat_j _ Hopp).
  - right. split; [| done]. intros k Hk.
    pose proof (Hlater k Hk) as Hjk. destruct Hk as (Hk & Hrunk & Hown).
    assert (ownedAt_out : ∀ q, ¬ ownedAt M N row col dr dc q j).
    { intros q [Hg _]. rewrite <- Hr, <- Hc in Hg. congruence. }
    destruct (decide (k = j)) as [-> | ?]; [by destruct (ownedAt_out p) |].
    destruct (ownedAt_out (opponentOf p)). apply Hrunk. lia.
Qed.

(** One direction of [makeMove]. *)
Lemma flipLoop_direction :
  ∃ M', Engine.flipLoop get set (Engine.loopFuel N) M p (opponentOf p) N dr dc
          (row + dr) (col + dc) [] = Ret M' ∧
        wfBoard N M' ∧
        ((∃ k, captures M N p row col dr dc k ∧
               ∀ r c, get M' r c =
                      if decide ((r, c) ∈ rayCells row col dr dc 1 k)
                      then Ret (cell (Some p)) else get M r c) ∨
         ((∀ k, ¬ captures M N p row col dr dc k) ∧ M' = M)).
Proof.
  rewrite <- (rayCells_nil row col dr dc 1).
  destruct (flipLoop_spec (Engine.loopFuel N) 1 (row + dr) (col + dc))
    as [(k & Hk & ->) | (Hnone & ->)];
    [lia | lia | lia | by apply loopFuel_enough | unfold Engine.loopFuel; lia
    | intros i ?; lia | |].
  - destruct (flipAll_spec N p (rayCells row col dr dc 1 k) M Hwf)
      as (M' & -> & Hwf' & Hget').
    { intros r c (i & Hi & -> & ->)%elem_of_rayCells.
      destruct Hk as (_ & Hrun & _). by apply Hrun. }
    exists M'. split_and!; [done | done |]. left. eauto.
  - exists M. split_and!; [done | done |]. by right.
Qed.
End FlipLoop.

Section FlipDirections.
Variables (B : Board) (N : Z) (p : Player) (row col : Z).

(** The pattern in a direction depends on the cells of that ray only. *)
Lemma captures_agree M dr dc k :
  (∀ i, 1 ≤ i →
     get M (row + i * dr) (col + i * dc) = get B (row + i * dr) (col + i * dc)) →
  captures M N p row col dr dc k ↔ captures B N p row col dr dc k.
Proof.
  intros Hagree. unfold captures, opponentRun, ownedAt.
  split; intros (Hk & Hrun & Hin & Hown); (split_and!; [done | | done |]).
  - intros i Hi. destruct (Hrun i Hi). by rewrite <- Hagree by lia.
  - by rewrite <- Hagree by lia.
  - intros i Hi. destruct (Hrun i Hi). by rewrite Hagree by lia.
  - by rewrite Hagree by lia.
Qed.

(** The loop over the directions: starting from a board that still shows
    [B] on the rays to come, it flips the captured runs of [ds] and
    nothing else. *)
Lemma flipDirections_spec ds : ∀ M,
  wfBoard N M → NoDup ds →
  (∀ dr dc, (dr, dc) ∈ ds → isDirection dr dc) →
  (∀ dr dc i, (dr, dc) ∈ ds → 1 ≤ i →
     get M (row + i * dr) (col + i * dc) = get B (row + i * dr) (col + i * dc)) →
  ∃ M', Engine.flipDirections get set ds M row col p (opponentOf p) N = Ret M' ∧
        wfBoard N M' ∧
        (∀ r c, flippedBy B N p row col ds r c → get M' r c = Ret (cell (Some p))) ∧
        (∀ r c, get M' r c = get M r c ∨ flippedBy B N p row col ds r c).
Proof.
  induction ds as [| [dr dc] ds IH]; intros M Hwf Hnd Hdirs Hagree.
  - exists M. split_and!; [done | done | | by left].
    intros r c (dr & dc & k & i & []%elem_of_nil & _).
  - cbn [Engine.flipDirections].
    apply NoDup_cons in Hnd as [Hnotin Hnd].
    assert (isDirection dr dc) as Hd by (apply Hdirs; left).
    destruct (flipLoop_direction M N p row col dr dc Hwf Hd)
      as (M1 & -> & Hwf1 & Hcase).
    cbn [mbind outcome_bind].
    assert (Hcap : ∀ k, captures M N p row col dr dc k ↔
                        captures B N p row col dr dc k).
    { intros k. apply captures_agree. intros. apply Hagree; [left | done]. }
    assert (Hray : ∀ r c,
      get M1 r c = get M r c ∨
      ∃ k i, captures B N p row col dr dc k ∧ 1 ≤ i < k ∧
             r = row + i * dr ∧ c = col + i * dc).
    { destruct Hcase as [(k & Hk & Hget) | (_ & ->)]; [| by left].
      intros r c. rewrite Hget. case_decide as Hel; [| by left].
      right. apply elem_of_rayCells in Hel as (i & Hi & -> & ->).
      exists k, i. split_and!; [by apply Hcap | lia | lia | done | done]. }
    destruct (IH M1 Hwf1 Hnd) as (M' & -> & Hwf' & Hflip & Hother).
    { intros. apply Hdirs. by right. }
    { intros dr' dc' i Hin Hi. rewrite <- (Hagree dr' dc' i) by (by right || done).
      destruct (Hray (row + i * dr') (col + i * dc'))
        as [-> | (k & i' & _ & Hi' & Her & Hec)]; [done |].
      destruct (ray_disjoint dr' dc' dr dc i i') as (-> & -> & _);
        [apply Hdirs; by right | done | lia | lia | lia | lia | done]. }
    exists M'. split_and!; [done | done | |].
    + intros r c (dr' & dc' & k & i & [Heq | Hin]%elem_of_cons & Hk & Hi & -> & ->).
      * simplify_eq.
        destruct (Hother (row + i * dr) (col + i * dc)) as [-> | Hfl];
          [| by apply Hflip].
        destruct Hcase as [(k' & Hk' & Hget) | (Hnone & _)].
        -- rewrite Hget, decide_True; [done |].
           apply elem_of_rayCells. exists i. split; [| done].
           assert (k' = k) as ->; [| done].
           apply (captures_unique B N p row col dr dc); [by apply Hcap | done].
        -- destruct (Hnone k). by apply Hcap.
      * apply Hflip. exists dr', dc', k, i. done.
    + intros r c. destruct (Hother r c) as [-> | (dr' & dc' & k & i & Hin & H)].
      * destruct (Hray r c) as [-> | (k & i & Hk & Hi & -> & ->)]; [by left |].
        right. exists dr, dc, k, i. split_and!; [left | done | lia | lia | done | done].
      * right. exists dr', dc', k, i. split; [by right | done].
Qed.

Hypothesis Hwf : wfBoard N B.
Hypothesis Hlegal : legalMove B N p row col.

(** A legal move: the shape is kept, the origin is taken, the captured
    runs are flipped, and every other cell is as it was. *)
Lemma makeMove_legal :
  ∃ B', makeMove B row col p N = Ret B' ∧ wfBoard N B' ∧
        get B' row col = Ret (cell (Some p)) ∧
        (∀ r c, flippedBy B N p row col directions r c → get B' r c = Ret (cell (Some p))) ∧
        (∀ r c, (r = row ∧ c = col) ∨ get B' r c = get B r c ∨
                flippedBy B N p row col directions r c).
Proof.
  pose proof (legalMove_inBounds B N p row col Hwf Hlegal) as Hin.
  destruct (isValidMove_spec B N p row col Hwf) as (b & Hb & Hiff);
    [apply inBounds_true in Hin; lia |].
  apply Hiff in Hlegal as ->. unfold makeMove. rewrite Hb.
  cbn [mbind outcome_bind negb]. unfold copyBoard. rewrite map_id.
  unfold Engine.placeAndFlip.
  destruct (set_wf N B row col (Some p) Hwf Hin) as (M0 & -> & Hwf0 & Hget0).
  cbn [mbind outcome_bind].
  destruct (flipDirections_spec directions M0 Hwf0 directions_NoDup)
    as (B' & -> & Hwf' & Hflip & Hother).
  { intros ??. apply directions_spec. }
  { intros dr dc i (Hr & Hc & Hne)%directions_spec Hi.
    rewrite Hget0, decide_False; [done | nia]. }
  exists B'. split_and!; [done | done | | done |].
  - destruct (Hother row col) as [-> | Hfl]; [| by apply Hflip].
    rewrite Hget0, decide_True; done.
  - intros r c. destruct (decide (r = row ∧ c = col)) as [| Hne]; [by left |].
    right. destruct (Hother r c) as [-> | Hfl]; [| by right].
    left. by rewrite Hget0, decide_False.
Qed.
End FlipDirections.

(** C2. On a legal move [makeMove] returns a board of the same shape in
    which the move cell holds the player and, direction by direction, the
    run of opponent cells next to the move cell is flipped to the player
    when a cell of the player closes it and left as it was when none does.
    Any other cell that changed was the opponent's, is now the player's,
    and lies on one of the eight rays from the move cell, inside a run of
    opponent cells that starts next to the move cell. *)
Theorem makeMove_correct B N p row col :
  wfBoard N B → isValidMove B row col p N = Ret true →
  ∃ B', makeMove B row col p N = Ret B' ∧ wfBoard N B' ∧
    get B' row col = Ret (cell (Some p)) ∧
    (∀ dr dc, isDirection dr dc →
       (∀ k, captures B N p row col dr dc k →
          ∀ i, 1 ≤ i < k →
            get B' (row + i * dr) (col + i * dc) = Ret (cell (Some p))) ∧
       ((∀ k, ¬ captures B N p row col dr dc k) →
          ∀ i, 1 ≤ i →
            get B' (row + i * dr) (col + i * dc) =
            get B (row + i * dr) (col + i * dc))) ∧
    (∀ r c, ¬ (r = row ∧ c = col) → get B' r c ≠ get B r c →
       get B r c = Ret (cell (Some (opponentOf p))) ∧
       get B' r c = Ret (cell (Some p)) ∧
       ∃ dr dc k i, isDirection dr dc ∧ captures B N p row col dr dc k ∧
                    1 ≤ i < k ∧ r = row + i * dr ∧ c = col + i * dc).
Proof.
  intros Hwf Hvalid.
  destruct (isValidMove_true B N p row col Hwf Hvalid) as [_ Hlegal].
  destruct (makeMove_legal B N p row col Hwf Hlegal)
    as (B' & HB' & Hwf' & Horigin & Hflip & Hother).
  exists B'. split_and!; [done | done | done | |].
  - intros dr dc Hd. split.
    + intros k Hk i Hi. apply Hflip. exists dr, dc, k, i.
      split_and!; [by apply directions_spec | done | lia | lia | done | done].
    + intros Hnone i Hi.
      destruct (Hother (row + i * dr) (col + i * dc))
        as [[Hr Hc] | [? | (dr' & dc' & k & i' & Hd'%directions_spec & Hk & Hi' & Her & Hec)]];
        [destruct Hd as (? & ? & ?); nia | done |].
      destruct (ray_disjoint dr dc dr' dc' i i') as (-> & -> & _);
        [done | done | lia | lia | lia | lia |].
      by destruct (Hnone k).
  - intros r c Hne Hchanged.
    destruct (Hother r c)
      as [? | [? | (dr & dc & k & i & Hd & Hk & Hi & -> & ->)]]; [done | done |].
    split_and!.
    + destruct Hk as (_ & Hrun & _). by apply Hrun.
    + apply Hflip. exists dr, dc, k, i. done.
    + exists dr, dc, k, i.
      split_and!; [by apply directions_spec | done | lia | lia | done | done].
Qed.

Lemma makeMove_correct_witness :
  ∃ B', makeMove opening8 2 3 black 8 = Ret B' ∧ wfBoard 8 B' ∧
    get B' 2 3 = Ret (cell (Some black)) ∧
    (∀ dr dc, isDirection dr dc →
       (∀ k, captures opening8 8 black 2 3 dr dc k →
          ∀ i, 1 ≤ i < k →
            get B' (2 + i * dr) (3 + i * dc) = Ret (cell (Some black))) ∧
       ((∀ k, ¬ captures opening8 8 black 2 3 dr dc k) →
          ∀ i, 1 ≤ i →
            get B' (2 + i * dr) (3 + i * dc) =
            get opening8 (2 + i * dr) (3 + i * dc))) ∧
    (∀ r c, ¬ (r = 2 ∧ c = 3) → get B' r c ≠ get opening8 r c →
       get opening8 r c = Ret (cell (Some (opponentOf black))) ∧
       get B' r c = Ret (cell (Some black)) ∧
       ∃ dr dc k i, isDirection dr dc ∧ captures opening8 8 black 2 3 dr dc k ∧
                    1 ≤ i < k ∧ r = 2 + i * dr ∧ c = 3 + i * dc).
Proof.
  apply (makeMove_correct opening8 8 black 2 3);
    [exact opening8_wf | reflexivity].
Defined.

(** ** Occupancy *)

Lemma occupied_empties N B :
  wfBoard N B → occupied B = N * N - countCell None (concat B).
Proof.
  intros Hwf. unfold occupied.
  pose proof (countCell_total (concat B)) as Htot.
  rewrite (wfBoard_cells N B Hwf) in Htot. lia.
Qed.

Lemma get_lookup (B : Board) (i j : nat) cells x :
  B !! i = Some cells → cells !! j = Some x →
  get B (Z.of_nat i) (Z.of_nat j) = Ret (cell x).
Proof. intros Hi Hj. unfold get. by rewrite index_of_nat, Hi, index_of_nat, Hj. Qed.

Lemma countCell_insert (cells : list Cell) (j : nat) x y z :
  cells !! j = Some y →
  countCell z (<[j := x]> cells) =
  countCell z cells - (if decide (y = z) then 1 else 0)
  + (if decide (x = z) then 1 else 0).
Proof.
  intros Hj. rewrite insert_take_drop by (by eapply lookup_lt_Some).
  rewrite <- (take_drop_middle cells j y Hj) at 3.
  rewrite !countCell_app, !countCell_cons. lia.
Qed.

Lemma countCell_insert_row (B : Board) (i : nat) cells cells' z :
  B !! i = Some cells →
  countCell z (concat (<[i := cells']> B)) =
  countCell z (concat B) - countCell z cells + countCell z cells'.
Proof.
  intros Hi. rewrite insert_take_drop by (by eapply lookup_lt_Some).
  rewrite <- (take_drop_middle B i cells Hi) at 3.
  rewrite !concat_app, !concat_cons, !countCell_app. lia.
Qed.

(** A store changes the count of [z] by what it overwrites and what it
    writes. *)
Lemma set_countCell B r c x y M z :
  get B r c = Ret (cell y) → set B r c x = Ret M →
  countCell z (concat M) =
  countCell z (concat B) - (if decide (y = z) then 1 else 0)
  + (if decide (x = z) then 1 else 0).
Proof.
  unfold get, set. intros Hget Hset.
  destruct (index B r) as [cells |] eqn:Hr; [| done].
  destruct (index cells c) as [y' |] eqn:Hc; simplify_eq.
  case_bool_decide; simplify_eq.
  apply index_Some in Hr as [_ Hr]. apply index_Some in Hc as [_ Hc].
  rewrite (countCell_insert_row _ _ _ _ _ Hr).
  rewrite (countCell_insert _ _ _ _ _ Hc). lia.
Qed.

(** Boards that are empty at the same places have as many empty cells. *)
Lemma countCell_None_ext N B1 B2 :
  wfBoard N B1 → wfBoard N B2 →
  (∀ r c, inBounds N r c = true →
     (get B1 r c = Ret (cell None) ↔ get B2 r c = Ret (cell None))) →
  countCell None (concat B1) = countCell None (concat B2).
Proof.
  intros [Hlen1 Hrows1] [Hlen2 Hrows2] Hsame.
  assert (Forall2 (Forall2 (λ x y : Cell, x = None ↔ y = None)) B1 B2) as Hall.
  { apply Forall2_same_length_lookup. split; [lia |].
    intros i cells1 cells2 Hi1 Hi2.
    rewrite Forall_lookup in Hrows1, Hrows2.
    pose proof (Hrows1 _ _ Hi1). pose proof (Hrows2 _ _ Hi2).
    apply Forall2_same_length_lookup. split; [lia |].
    intros j x y Hj1 Hj2.
    pose proof (lookup_lt_Some _ _ _ Hi1). pose proof (lookup_lt_Some _ _ _ Hj1).
    specialize (Hsame (Z.of_nat i) (Z.of_nat j)).
    rewrite (get_lookup B1 i j cells1 x), (get_lookup B2 i j cells2 y) in Hsame
      by done.
    destruct Hsame as [H12 H21]; [apply inBounds_true; lia |].
    split; intros ->; [specialize (H12 eq_refl) | specialize (H21 eq_refl)];
      by simplify_eq. }
  clear -Hall. induction Hall as [| cells1 cells2 B1 B2 Hrow _ IH]; [done |].
  rewrite !concat_cons, !countCell_app, IH. f_equal.
  clear -Hrow. induction Hrow as [| x y cells1 cells2 Hxy _ IH]; [done |].
  rewrite !countCell_cons, IH. repeat case_decide; try done; exfalso; tauto.
Qed.

(** C10. On a legal move every occupied cell stays occupied, the move
    cell is the only one that goes from empty to occupied, and the number
    of occupied cells grows by one. *)
Theorem makeMove_occupancy B N p row col :
  wfBoard N B → isValidMove B row col p N = Ret true →
  ∃ B', makeMove B row col p N = Ret B' ∧
    (∀ r c q, get B r c = Ret (cell (Some q)) →
       ∃ q', get B' r c = Ret (cell (Some q'))) ∧
    (∀ r c, get B r c = Ret (cell None) → get B' r c ≠ Ret (cell None) →
       r = row ∧ c = col) ∧
    get B row col = Ret (cell None) ∧
    get B' row col = Ret (cell (Some p)) ∧
    occupied B' = occupied B + 1.
Proof.
  intros Hwf Hvalid.
  destruct (isValidMove_true B N p row col Hwf Hvalid) as [_ Hlegal].
  pose proof (legalMove_inBounds B N p row col Hwf Hlegal) as Hin.
  destruct (makeMove_legal B N p row col Hwf Hlegal)
    as (B' & HB' & Hwf' & Horigin & Hflip & Hother).
  assert (Hempty : get B row col = Ret (cell None)) by apply Hlegal.
  assert (Hwas : ∀ r c, flippedBy B N p row col directions r c →
                 get B r c = Ret (cell (Some (opponentOf p)))).
  { intros r c (dr & dc & k & i & _ & (_ & Hrun & _) & Hi & -> & ->).
    by apply Hrun. }
  exists B'. split_and!; [done | | | done | done |].
  - intros r c q Hq.
    destruct (Hother r c) as [[-> ->] | [-> | Hfl]]; [congruence | eauto |].
    exists p. by apply Hflip.
  - intros r c Hnone Hsome.
    destruct (Hother r c) as [? | [Heq | Hfl]]; [done | congruence |].
    apply Hwas in Hfl. congruence.
  - destruct (set_wf N B row col (Some p) Hwf Hin) as (M0 & HM0 & Hwf0 & Hget0).
    rewrite (occupied_empties N B'), (occupied_empties N B) by done.
    rewrite (countCell_None_ext N B' M0), (set_countCell B row col _ _ M0 None Hempty HM0);
      [rewrite decide_True, decide_False by done; lia | done | done |].
    intros r c _. rewrite Hget0.
    destruct (Hother r c) as [[-> ->] | [Heq | Hfl]].
    + rewrite Horigin, decide_True by done. done.
    + rewrite Heq. case_decide as Hrc; [| done].
      destruct Hrc as [-> ->]. rewrite Hempty. split; [| done].
      intros _. rewrite Horigin in Heq. congruence.
    + rewrite (Hflip r c Hfl). case_decide; [done |].
      rewrite (Hwas r c Hfl). done.
Qed.

Lemma makeMove_occupancy_witness :
  ∃ B', makeMove opening8 2 3 black 8 = Ret B' ∧
    (∀ r c q, get opening8 r c = Ret (cell (Some q)) →
       ∃ q', get B' r c = Ret (cell (Some q'))) ∧
    (∀ r c, get opening8 r c = Ret (cell None) → get B' r c ≠ Ret (cell None) →
       r = 2 ∧ c = 3) ∧
    get opening8 2 3 = Ret (cell None) ∧
    get B' 2 3 = Ret (cell (Some black)) ∧
    occupied B' = occupied opening8 + 1.
Proof.
  apply (makeMove_occupancy opening8 8 black 2 3);
    [exact opening8_wf | reflexivity].
Defined.

(** ** Exceptions *)

Lemma makeMove_returns B N p row col :
  wfBoard N B → 0 ≤ row < N →
  ∃ B', makeMove B row col p N = Ret B' ∧ wfBoard N B'.
Proof.
  intros Hwf Hrow.
  destruct (isValidMove_spec B N p row col Hwf Hrow) as ([] & Hb & Hiff).
  - destruct (makeMove_legal B N p row col Hwf) as (B' & HB' & Hwf' & _);
      [by apply Hiff | eauto].
  - exists B. split; [| done]. unfold makeMove. by rewrite Hb.
Qed.

Lemma isValidMove_no_row B N p row col :
  wfBoard N B → ¬ (0 ≤ row < N) →
  isValidMove B row col p N = Throw TypeError.
Proof.
  intros [Hlen _] Hrow. unfold isValidMove, Engine.isValidMove.
  rewrite get_no_row by lia. done.
Qed.




(** On an N×N board the engine stays inside what the embedding covers,
    whatever the coordinates. *)
Lemma engine_within_model B N p row col l :
  wfBoard N B →
  isValidMove B row col p N ≠ Beyond l ∧
  makeMove B row col p N ≠ Beyond l ∧
  getValidMoves B p N ≠ Beyond l ∧
  countPieces B N ≠ Beyond l.
Proof.
  intros Hwf. rewrite (getValidMoves_filter B p N Hwf), (countPieces_fold N B Hwf).
  destruct (decide (0 ≤ row < N)) as [Hrow | Hrow].
  - destruct (isValidMove_spec B N p row col Hwf Hrow) as (b & -> & _).
    destruct (makeMove_returns B N p row col Hwf Hrow) as (B' & -> & _).
    done.
  - unfold makeMove. rewrite (isValidMove_no_row B N p row col Hwf Hrow). done.
Qed.

(** ** The click handler *)

Lemma getValidMoves_hasMove B p N :
  wfBoard N B →
  ∃ moves, getValidMoves B p N = Ret moves ∧
           (bool_decide (0 < length moves)%nat = true ↔ hasMove B p N).
Proof.
  intros Hwf. eexists. split; [by apply getValidMoves_filter |].
  pose proof (elem_of_validMoves B p N Hwf) as Hmem.
  destruct (filter _ (rowMajor N)) as [| [row col] moves].
  - rewrite bool_decide_eq_true. cbn [length]. split; [lia |].
    intros (row & col & Hv%Hmem). by apply elem_of_nil in Hv.
  - rewrite bool_decide_eq_true. cbn [length]. split; [| lia].
    intros _. exists row, col. apply Hmem. left.
Qed.



(** A click is ignored when the game is over or the move is not legal. *)
Lemma handleCellClick_ignored N st row col :
  gameOver st = true ∨
  isValidMove (board st) row col (currentPlayer st) N = Ret false →
  handleCellClick N st row col = Ret st.
Proof.
  unfold handleCellClick. intros [-> | Hv]; [done |].
  destruct (gameOver st); [done |]. by rewrite Hv.
Qed.

(** ** The scenarios of the specification, run on the embedding *)

Example opening_board : createInitialBoard 8 = Ret opening8.
Proof. reflexivity. Qed.

Example opening_move_legal : isValidMove opening8 2 3 black 8 = Ret true.
Proof. reflexivity. Qed.

Example opening_corner_illegal : isValidMove opening8 0 0 black 8 = Ret false.
Proof. reflexivity. Qed.

Example opening_moves :
  getValidMoves opening8 black 8 = Ret [(2, 3); (3, 2); (4, 5); (5, 4)].
Proof. reflexivity. Qed.

Example opening_move_applied :
  makeMove opening8 2 3 black 8 =
  Ret (let o := None in let w := Some white in let b := Some black in
       [ [o; o; o; o; o; o; o; o];
         [o; o; o; o; o; o; o; o];
         [o; o; o; b; o; o; o; o];
         [o; o; o; b; b; o; o; o];
         [o; o; o; b; w; o; o; o];
         [o; o; o; o; o; o; o; o];
         [o; o; o; o; o; o; o; o];
         [o; o; o; o; o; o; o; o] ]).
Proof. reflexivity. Qed.

(** Turn skip: white cannot answer, black keeps the turn and the game
    goes on. *)
Example turn_skip :
  handleCellClick 4 (mkSession skipBoard black false None) 0 0 =
  Ret (mkSession
         (let o := None in let w := Some white in let b := Some black in
          [ [b; b; b; o];
            [o; o; o; o];
            [o; o; o; o];
            [b; w; o; o] ])
         black false None).
Proof. reflexivity. Qed.

(** Game end: neither player can move, and black has more pieces. *)
Example game_end :
  handleCellClick 4 (mkSession lastBoard black false None) 0 0 =
  Ret (mkSession
         (let o := None in let b := Some black in
          [ [b; b; b; o];
            [o; o; o; o];
            [o; o; o; o];
            [o; o; o; o] ])
         black true (Some (won black))).
Proof. reflexivity. Qed.

(** ** Two memories that show the same board *)

Lemma orel_bind {A A' X X'} (R : A → A' → Prop) (S : X → X' → Prop)
    (o : outcome A) (o' : outcome A') (f : A → outcome X) (f' : A' → outcome X') :
  orel R o o' → (∀ a a', R a a' → orel S (f a) (f' a')) →
  orel S (o ≫= f) (o' ≫= f').
Proof. destruct o, o'; cbn; try done. intros HR Hf. by apply Hf. Qed.

Section Refinement.
Context {mem1 mem2 : Type}.
Variable rd1 : mem1 → Z → Z → outcome jsval.
Variable wr1 : mem1 → Z → Z → Cell → outcome mem1.
Variable rd2 : mem2 → Z → Z → outcome jsval.
Variable wr2 : mem2 → Z → Z → Cell → outcome mem2.
Variable R : mem1 → mem2 → Prop.
Hypothesis Hrd : ∀ m1 m2 r c, R m1 m2 → rd1 m1 r c = rd2 m2 r c.
Hypothesis Hwr : ∀ m1 m2 r c x, R m1 m2 → orel R (wr1 m1 r c x) (wr2 m2 r c x).

Lemma scanLoop_sim m1 m2 p q N dr dc fuel : R m1 m2 → ∀ r c h,
  Engine.scanLoop rd1 fuel m1 p q N dr dc r c h =
  Engine.scanLoop rd2 fuel m2 p q N dr dc r c h.
Proof.
  intros HR. induction fuel as [| fuel IH]; intros r c h; [done |].
  cbn [Engine.scanLoop]. rewrite (Hrd _ _ _ _ HR).
  destruct (inBounds N r c); [| done].
  destruct (rd2 m2 r c) as [v | |]; cbn [mbind outcome_bind]; [| done | done].
  by rewrite IH.
Qed.

Lemma scanDirections_sim m1 m2 p q N row col ds : R m1 m2 →
  Engine.scanDirections rd1 ds m1 row col p q N =
  Engine.scanDirections rd2 ds m2 row col p q N.
Proof.
  intros HR. induction ds as [| [dr dc] ds IH]; [done |].
  cbn [Engine.scanDirections]. by rewrite (scanLoop_sim m1 m2), IH.
Qed.

Lemma isValidMove_sim m1 m2 p N row col : R m1 m2 →
  Engine.isValidMove rd1 m1 row col p N = Engine.isValidMove rd2 m2 row col p N.
Proof.
  intros HR. unfold Engine.isValidMove.
  by rewrite (Hrd _ _ _ _ HR), (scanDirections_sim m1 m2).
Qed.

Lemma flipAll_sim p cells : ∀ m1 m2, R m1 m2 →
  orel R (Engine.flipAll wr1 m1 cells p) (Engine.flipAll wr2 m2 cells p).
Proof.
  induction cells as [| [fr fc] cells IH]; intros m1 m2 HR; [done |].
  cbn [Engine.flipAll]. eapply orel_bind; [by apply Hwr | done].
Qed.

Lemma flipLoop_sim m1 m2 p q N dr dc fuel : R m1 m2 → ∀ r c toFlip,
  orel R (Engine.flipLoop rd1 wr1 fuel m1 p q N dr dc r c toFlip)
         (Engine.flipLoop rd2 wr2 fuel m2 p q N dr dc r c toFlip).
Proof.
  intros HR. induction fuel as [| fuel IH]; intros r c toFlip; [done |].
  cbn [Engine.flipLoop]. rewrite (Hrd _ _ _ _ HR).
  destruct (inBounds N r c); [| done].
  destruct (rd2 m2 r c) as [v | |]; cbn [mbind outcome_bind]; [| done | done].
  destruct (isPlayer v q); [apply IH |].
  destruct (isPlayer v p && _); [by apply flipAll_sim | done].
Qed.

Lemma flipDirections_sim p q N row col ds : ∀ m1 m2, R m1 m2 →
  orel R (Engine.flipDirections rd1 wr1 ds m1 row col p q N)
         (Engine.flipDirections rd2 wr2 ds m2 row col p q N).
Proof.
  induction ds as [| [dr dc] ds IH]; intros m1 m2 HR; [done |].
  cbn [Engine.flipDirections]. eapply orel_bind; [by apply flipLoop_sim | done].
Qed.

Lemma placeAndFlip_sim m1 m2 p N row col : R m1 m2 →
  orel R (Engine.placeAndFlip rd1 wr1 m1 row col p N)
         (Engine.placeAndFlip rd2 wr2 m2 row col p N).
Proof.
  intros HR. unfold Engine.placeAndFlip.
  eapply orel_bind; [by apply Hwr |]. intros. by apply flipDirections_sim.
Qed.
End Refinement.

(** ** [makeMove] on a store of arrays *)

Lemma deref_shows s b B :
  Heap.deref s b = Some B ↔
  ∃ rows, Heap.outers s !! b = Some rows ∧ shows s rows B.
Proof.
  unfold Heap.deref, shows. destruct (Heap.outers s !! b) as [rows |]; cbn.
  - rewrite mapM_Some. split; [eauto |]. by intros (? & [= <-] & ?).
  - split; [done |]. by intros (? & ? & _).
Qed.

Lemma shows_weaken s s' rows B :
  Heap.inners s ⊆ Heap.inners s' → shows s rows B → shows s' rows B.
Proof.
  intros Hsub Hsh. eapply Forall2_impl; [done |]. intros l cells Hl.
  exact (lookup_weaken _ _ _ _ Hl Hsub).
Qed.

Lemma deref_weaken s s' b B :
  Heap.outers s ⊆ Heap.outers s' → Heap.inners s ⊆ Heap.inners s' →
  Heap.deref s b = Some B → Heap.deref s' b = Some B.
Proof.
  intros Hout Hin (rows & Hb & Hsh)%deref_shows. apply deref_shows.
  exists rows. split; [exact (lookup_weaken _ _ _ _ Hb Hout) | by eapply shows_weaken].
Qed.

Lemma load_shows s b rows B r c :
  Heap.outers s !! b = Some rows → shows s rows B →
  get B r c = Heap.load b s r c.
Proof.
  intros Hb Hsh. unfold Heap.load, get. rewrite Hb.
  destruct (index rows r) as [l |] eqn:Hl.
  - apply index_Some in Hl as [Hr Hl].
    destruct (Forall2_lookup_l _ _ _ _ _ Hsh Hl) as (cells & HB & Hcells).
    rewrite Hcells. assert (index B r = Some cells) as ->; [| done].
    by apply index_Some.
  - apply index_None in Hl. assert (index B r = None) as ->; [| done].
    apply index_None. by rewrite <- (Forall2_length _ _ _ Hsh).
Qed.

Lemma load_copyOf s0 nb B s r c :
  copyOf s0 nb B s → get B r c = Heap.load nb s r c.
Proof. intros (rows & Hnb & _ & Hsh & _). by eapply load_shows. Qed.

(** A store into the copy goes to a row of the copy. *)
Lemma assign_copyOf s0 nb B s r c x :
  copyOf s0 nb B s → orel (copyOf s0 nb) (set B r c x) (Heap.assign nb s r c x).
Proof.
  intros (rows & Hnb & Hnd & Hsh & Hfresh & Hout & Hin).
  unfold set, Heap.assign. rewrite Hnb.
  destruct (index rows r) as [l |] eqn:Hl.
  - apply index_Some in Hl as [Hr Hl].
    destruct (Forall2_lookup_l _ _ _ _ _ Hsh Hl) as (cells & HB & Hcells).
    rewrite Hcells. assert (index B r = Some cells) as -> by (by apply index_Some).
    case_bool_decide; [| done]. cbn [orel].
    exists rows. cbn [Heap.outers Heap.inners]. split_and!; [done | done | | done | done |].
    + apply Forall2_same_length_lookup. split.
      { rewrite length_insert. by eapply Forall2_length. }
      intros i li cells_i Hli Hci. cbn [Heap.inners].
      destruct (decide (i = Z.to_nat r)) as [-> | Hne].
      * rewrite list_lookup_insert_eq in Hci by (by eapply lookup_lt_Some).
        simplify_eq. by rewrite lookup_insert_eq.
      * rewrite list_lookup_insert_ne in Hci by done.
        rewrite lookup_insert_ne.
        -- by eapply (Forall2_lookup_lr _ _ _ _ _ _ Hsh).
        -- intros <-. destruct Hne. by eapply NoDup_lookup.
    + apply insert_subseteq_r; [| done].
      apply not_elem_of_dom, Hfresh. by eapply list_elem_of_lookup_2.
  - apply index_None in Hl. assert (index B r = None) as ->; [| done].
    apply index_None. by rewrite <- (Forall2_length _ _ _ Hsh).
Qed.

Lemma spreadRows_spec rows : ∀ s B,
  shows s rows B →
  ∃ s1 rows', Heap.spreadRows s rows = Ret (s1, rows') ∧
    Heap.outers s1 = Heap.outers s ∧ Heap.inners s ⊆ Heap.inners s1 ∧
    NoDup rows' ∧ shows s1 rows' B ∧
    ∀ l, l ∈ rows' → l ∉ dom (Heap.inners s).
Proof.
  induction rows as [| l rows IH]; intros s B Hsh.
  - apply Forall2_nil_inv_l in Hsh as ->. exists s, [].
    split_and!; [done | done | done | constructor | constructor |].
    intros l []%elem_of_nil.
  - apply Forall2_cons_inv_l in Hsh as (cells & B' & Hl & Hsh & ->).
    cbn [Heap.spreadRows]. unfold Heap.spread, Heap.allocRow. rewrite Hl.
    cbn [mbind outcome_bind].
    set (l' := fresh (dom (Heap.inners s))).
    assert (Heap.inners s !! l' = None) as Hfresh.
    { apply not_elem_of_dom, is_fresh. }
    set (s_mid := Heap.mkStore (Heap.outers s) (<[l' := cells]> (Heap.inners s))).
    assert (Heap.inners s ⊆ Heap.inners s_mid) as Hmid by (by apply insert_subseteq).
    destruct (IH s_mid B') as (s1 & rows' & -> & Hout & Hin & Hnd & Hsh1 & Hnew).
    { by eapply shows_weaken. }
    cbn [mbind outcome_bind]. exists s1, (l' :: rows').
    split_and!; [done | done | by etrans | | |].
    + constructor; [| done]. intros Hl'%Hnew. destruct Hl'.
      apply elem_of_dom. cbn. rewrite lookup_insert_eq. eauto.
    + constructor; [| done]. apply (lookup_weaken (Heap.inners s_mid)); [| done].
      cbn. by rewrite lookup_insert_eq.
    + intros l0 [-> | Hl0]%elem_of_cons; [apply is_fresh |].
      intros [y Hy]%elem_of_dom. destruct (Hnew l0 Hl0).
      apply elem_of_dom. exists y. exact (lookup_weaken _ _ _ _ Hy Hmid).
Qed.

Lemma copyBoard_spec s b B :
  Heap.deref s b = Some B →
  ∃ s1 nb, Heap.copyBoard s b = Ret (s1, nb) ∧ copyOf s nb B s1 ∧
           nb ∉ dom (Heap.outers s).
Proof.
  intros (rows & Hb & Hsh)%deref_shows. unfold Heap.copyBoard. rewrite Hb.
  destruct (spreadRows_spec rows s B Hsh)
    as (s1 & rows' & -> & Hout & Hin & Hnd & Hsh1 & Hnew).
  cbn [mbind outcome_bind]. unfold Heap.allocOuter. rewrite Hout.
  set (nb := fresh (dom (Heap.outers s))).
  assert (Heap.outers s !! nb = None) as Hfresh.
  { apply not_elem_of_dom, is_fresh. }
  eexists _, nb. split_and!; [done | | apply is_fresh].
  exists rows'. cbn [Heap.outers Heap.inners].
  split_and!; [by rewrite lookup_insert_eq | done | done | done | | done].
  by apply insert_subseteq.
Qed.

(** The run on the store follows the run on the board value, and tells
    what happens to the arrays. *)
Lemma heap_makeMove_refines s b B N p row col :
  Heap.deref s b = Some B →
  orel (λ B' r,
          Heap.deref (r.1) (r.2) = Some B' ∧
          Heap.outers s ⊆ Heap.outers (r.1) ∧
          Heap.inners s ⊆ Heap.inners (r.1) ∧
          (isValidMove B row col p N = Ret false → r = (s, b)) ∧
          (isValidMove B row col p N = Ret true →
             (r.2 ∉ dom (Heap.outers s)) ∧
             ∃ rows', Heap.outers (r.1) !! (r.2) = Some rows' ∧
                      ∀ l, l ∈ rows' → l ∉ dom (Heap.inners s)))
       (makeMove B row col p N) (Heap.makeMove s b row col p N).
Proof.
  intros Hderef. unfold makeMove, Heap.makeMove, isValidMove.
  rewrite <- (isValidMove_sim get (Heap.load b)
                (λ B0 s0, Heap.deref s0 b = Some B0)) with (m1 := B); [| | done].
  2: { intros B0 s0 r c (rows & Hb & Hsh)%deref_shows. by eapply load_shows. }
  destruct (Engine.isValidMove get B row col p N) as [[] | e | l] eqn:Hvalid;
    cbn [mbind outcome_bind negb]; [| | done | done].
  - destruct (copyBoard_spec s b B Hderef) as (s1 & nb & -> & Hcopy & Hnb).
    cbn [mbind outcome_bind]. unfold copyBoard. rewrite map_id.
    pose proof (placeAndFlip_sim get set (Heap.load nb) (Heap.assign nb)
                  (copyOf s nb) (load_copyOf s nb) (assign_copyOf s nb)
                  B s1 p N row col Hcopy) as Hsim.
    destruct (Engine.placeAndFlip get set B row col p N) as [B' | |],
             (Engine.placeAndFlip (Heap.load nb) (Heap.assign nb) s1 row col p N)
               as [s2 | |]; cbn [orel mbind outcome_bind] in *; try done.
    destruct Hsim as (rows' & Hrows' & _ & Hsh' & Hnew & Hout & Hin).
    cbn [fst snd]. split_and!; [| done | done | done |].
    + apply deref_shows. eauto.
    + intros _. eauto.
  - cbn [orel fst snd]. split_and!; [done | done | done | done | done].
Qed.

Lemma openingStore_deref : Heap.deref openingStore 1%positive = Some opening8.
Proof. reflexivity. Defined.

(** C9. [makeMove] writes to no array that existed when it was called:
    after the call the board it was given reads as before, cell for cell,
    and so does every other array of the store.  On a legal move the board
    it returns is a new array whose rows are new arrays; on an illegal move
    it returns the board it was given and the store is as it was. *)
Theorem makeMove_no_mutation s b B N p row col :
  Heap.deref s b = Some B → wfBoard N B → 0 ≤ row < N →
  ∃ s' b' B',
    Heap.makeMove s b row col p N = Ret (s', b') ∧
    makeMove B row col p N = Ret B' ∧
    Heap.deref s' b' = Some B' ∧
    Heap.deref s' b = Some B ∧
    Heap.outers s ⊆ Heap.outers s' ∧ Heap.inners s ⊆ Heap.inners s' ∧
    (isValidMove B row col p N = Ret true →
       (b' ∉ dom (Heap.outers s)) ∧
       ∃ rows', Heap.outers s' !! b' = Some rows' ∧
                ∀ l, l ∈ rows' → l ∉ dom (Heap.inners s)) ∧
    (isValidMove B row col p N = Ret false → s' = s ∧ b' = b).
Proof.
  intros Hderef Hwf Hrow.
  destruct (makeMove_returns B N p row col Hwf Hrow) as (B' & HB' & _).
  pose proof (heap_makeMove_refines s b B N p row col Hderef) as Hsim.
  rewrite HB' in Hsim.
  destruct (Heap.makeMove s b row col p N) as [[s' b'] | |]; cbn [orel] in Hsim;
    [| done | done].
  cbn [fst snd] in Hsim. destruct Hsim as (Hnew & Hout & Hin & Hfalse & Htrue).
  exists s', b', B'. split_and!; [done | done | done | | done | done | done |].
  - by eapply deref_weaken.
  - intros Hv. specialize (Hfalse Hv). by simplify_eq.
Qed.

Lemma makeMove_no_mutation_witness :
  ∃ s' b' B',
    Heap.makeMove openingStore 1%positive 2 3 black 8 = Ret (s', b') ∧
    makeMove opening8 2 3 black 8 = Ret B' ∧
    Heap.deref s' b' = Some B' ∧
    Heap.deref s' 1%positive = Some opening8 ∧
    Heap.outers openingStore ⊆ Heap.outers s' ∧
    Heap.inners openingStore ⊆ Heap.inners s' ∧
    (isValidMove opening8 2 3 black 8 = Ret true →
       (b' ∉ dom (Heap.outers openingStore)) ∧
       ∃ rows', Heap.outers s' !! b' = Some rows' ∧
                ∀ l, l ∈ rows' → l ∉ dom (Heap.inners openingStore)) ∧
    (isValidMove opening8 2 3 black 8 = Ret false →
       s' = openingStore ∧ b' = 1%positive).
Proof.
  apply (makeMove_no_mutation openingStore 1%positive opening8 8 black 2 3);
    [exact openingStore_deref | exact opening8_wf | lia].
Defined.

(** On the store too [makeMove] stays inside what the embedding covers. *)
Lemma heap_within_model s b B N p row col l :
  Heap.deref s b = Some B → wfBoard N B →
  Heap.makeMove s b row col p N ≠ Beyond l.
Proof.
  intros Hderef Hwf Hbeyond.
  pose proof (heap_makeMove_refines s b B N p row col Hderef) as Hsim.
  rewrite Hbeyond in Hsim.
  destruct (engine_within_model B N p row col l Hwf) as (_ & Hpure & _).
  destruct (makeMove B row col p N); cbn [orel] in Hsim; [done | done |].
  by subst.
Qed.

(** ** [createInitialBoard] on a store of arrays *)

Lemma orel_bind_ret {A A' X'} (R : A → A' → Prop) (S : A → X' → Prop)
    (o : outcome A) (o' : outcome A') (g : A' → X') :
  orel R o o' → (∀ a a', R a a' → S a (g a')) →
  orel S o (o' ≫= λ a', Ret (g a')).
Proof. destruct o, o'; cbn; try done. intros HR Hg. by apply Hg. Qed.

(** The rows that line 10 builds are distinct new arrays of [null]s. *)
Lemma allocRows_spec size n : 0 ≤ size ≤ maxArrayLength → ∀ s,
  ∃ s1 rows, Heap.allocRows s n size = Ret (s1, rows) ∧
    Heap.outers s1 = Heap.outers s ∧ Heap.inners s ⊆ Heap.inners s1 ∧
    NoDup rows ∧
    shows s1 rows (replicate n (replicate (Z.to_nat size) None)) ∧
    ∀ l, l ∈ rows → l ∉ dom (Heap.inners s).
Proof.
  intros Hsize. induction n as [| n IH]; intros s.
  - exists s, []. split_and!; [done | done | done | constructor | constructor |].
    intros l []%elem_of_nil.
  - cbn [Heap.allocRows]. unfold newArray, Heap.allocRow.
    rewrite bool_decide_eq_true_2 by done. cbn [mbind outcome_bind].
    set (cells := replicate (Z.to_nat size) None).
    set (l' := fresh (dom (Heap.inners s))).
    assert (Heap.inners s !! l' = None) as Hfresh.
    { apply not_elem_of_dom, is_fresh. }
    set (s_mid := Heap.mkStore (Heap.outers s) (<[l' := cells]> (Heap.inners s))).
    assert (Heap.inners s ⊆ Heap.inners s_mid) as Hmid by (by apply insert_subseteq).
    destruct (IH s_mid) as (s1 & rows & -> & Hout & Hin & Hnd & Hsh & Hnew).
    cbn [mbind outcome_bind]. exists s1, (l' :: rows).
    split_and!; [done | done | by etrans | | |].
    + constructor; [| done]. intros Hl'%Hnew. destruct Hl'.
      apply elem_of_dom. cbn. rewrite lookup_insert_eq. eauto.
    + cbn [replicate]. constructor; [| done].
      apply (lookup_weaken (Heap.inners s_mid)); [| done].
      cbn. by rewrite lookup_insert_eq.
    + intros l0 [-> | Hl0]%elem_of_cons; [apply is_fresh |].
      intros [y Hy]%elem_of_dom. destruct (Hnew l0 Hl0).
      apply elem_of_dom. exists y. exact (lookup_weaken _ _ _ _ Hy Hmid).
Qed.

(** The run of [createInitialBoard] on the store follows the run on board
    values: the rows do not share cells, so the four stores of lines 13-16
    change four cells. *)
Lemma heap_createInitialBoard_refines s size :
  orel (λ B r,
          Heap.deref (r.1) (r.2) = Some B ∧
          Heap.outers s ⊆ Heap.outers (r.1) ∧
          Heap.inners s ⊆ Heap.inners (r.1) ∧
          (r.2 ∉ dom (Heap.outers s)))
       (createInitialBoard size) (Heap.createInitialBoard s size).
Proof.
  unfold createInitialBoard, Heap.createInitialBoard, newArray.
  case_bool_decide as Hsize; [| done]. cbn [mbind outcome_bind].
  rewrite mapM_replicate_ret, length_replicate. cbn [mbind outcome_bind].
  destruct (allocRows_spec size (Z.to_nat size) Hsize s)
    as (s1 & rows & -> & Hout & Hin & Hnd & Hsh & Hnew).
  cbn [mbind outcome_bind]. unfold Heap.allocOuter. rewrite Hout.
  set (b := fresh (dom (Heap.outers s))).
  assert (Heap.outers s !! b = None) as Hfresh.
  { apply not_elem_of_dom, is_fresh. }
  destruct (Z.even size); [| done]. cbv zeta.
  set (s2 := Heap.mkStore _ _).
  assert (copyOf s b (replicate (Z.to_nat size) (replicate (Z.to_nat size) None)) s2)
    as Hcopy.
  { exists rows. unfold s2. cbn [Heap.outers Heap.inners].
    split_and!; [by rewrite lookup_insert_eq | done | done | done | | done].
    by apply insert_subseteq. }
  eapply orel_bind; [by apply assign_copyOf |]. intros B1 s3 H1.
  eapply orel_bind; [by apply assign_copyOf |]. intros B2 s4 H2.
  eapply orel_bind; [by apply assign_copyOf |]. intros B3 s5 H3.
  eapply (orel_bind_ret _ _ _ _ (λ s6, (s6, b))); [by apply assign_copyOf |].
  intros B4 s6 (rows' & Hb & _ & Hsh' & _ & Hout' & Hin'). cbn [fst snd].
  split_and!; [| done | done | apply is_fresh].
  apply deref_shows. eauto.
Qed.

(** * Further properties *)

(** ** What a legal move does to the two counts *)

(** A board that holds [x] only where another does has no more cells
    with [x]. *)
Lemma countCell_le_ext N B1 B2 x :
  wfBoard N B1 → wfBoard N B2 →
  (∀ r c, inBounds N r c = true →
     get B1 r c = Ret (cell x) → get B2 r c = Ret (cell x)) →
  countCell x (concat B1) ≤ countCell x (concat B2).
Proof.
  intros [Hlen1 Hrows1] [Hlen2 Hrows2] Hsame.
  assert (Forall2 (Forall2 (λ y z : Cell, y = x → z = x)) B1 B2) as Hall.
  { apply Forall2_same_length_lookup. split; [lia |].
    intros i cells1 cells2 Hi1 Hi2.
    rewrite Forall_lookup in Hrows1, Hrows2.
    pose proof (Hrows1 _ _ Hi1). pose proof (Hrows2 _ _ Hi2).
    apply Forall2_same_length_lookup. split; [lia |].
    intros j y z Hj1 Hj2 ->.
    pose proof (lookup_lt_Some _ _ _ Hi1). pose proof (lookup_lt_Some _ _ _ Hj1).
    specialize (Hsame (Z.of_nat i) (Z.of_nat j)).
    rewrite (get_lookup B1 i j cells1 x), (get_lookup B2 i j cells2 z) in Hsame
      by done.
    assert (Ret (cell z) = Ret (cell x)) as Heq; [| by simplify_eq].
    apply Hsame; [apply inBounds_true; lia | done]. }
  clear -Hall. induction Hall as [| cells1 cells2 B1 B2 Hrow _ IH]; [done |].
  rewrite !concat_cons, !countCell_app.
  assert (countCell x cells1 ≤ countCell x cells2); [| lia].
  clear -Hrow. induction Hrow as [| y z cells1 cells2 Hyz _ IH]; [done |].
  rewrite !countCell_cons. repeat case_decide; try lia. exfalso. tauto.
Qed.

Lemma countCell_players N B p :
  wfBoard N B →
  countCell (Some p) (concat B) + countCell (Some (opponentOf p)) (concat B)
  + countCell None (concat B) = N * N.
Proof.
  intros Hwf. pose proof (countCell_total (concat B)) as Htot.
  rewrite (wfBoard_cells N B Hwf) in Htot. destruct p; cbn [opponentOf]; lia.
Qed.

(** A legal move leaves one empty cell less. *)
Lemma makeMove_legal_empties B N p row col B' :
  wfBoard N B → legalMove B N p row col →
  makeMove B row col p N = Ret B' →
  countCell None (concat B') = countCell None (concat B) - 1.
Proof.
  intros Hwf Hlegal HB'.
  pose proof (legalMove_inBounds B N p row col Hwf Hlegal) as Hin.
  destruct (makeMove_legal B N p row col Hwf Hlegal)
    as (B0 & HB0 & Hwf' & Horigin & Hflip & Hother).
  rewrite HB' in HB0. simplify_eq.
  assert (Hempty : get B row col = Ret (cell None)) by apply Hlegal.
  assert (Hwas : ∀ r c, flippedBy B N p row col directions r c →
                 get B r c = Ret (cell (Some (opponentOf p)))).
  { intros r c (dr & dc & k & i & _ & (_ & Hrun & _) & Hi & -> & ->).
    by apply Hrun. }
  destruct (set_wf N B row col (Some p) Hwf Hin) as (M0 & HM0 & Hwf0 & Hget0).
  rewrite (countCell_None_ext N B0 M0),
    (set_countCell B row col _ _ M0 None Hempty HM0);
    [rewrite decide_True, decide_False by done; lia | done | done |].
  intros r c _. rewrite Hget0.
  destruct (Hother r c) as [[-> ->] | [Heq | Hfl]].
  - rewrite Horigin, decide_True by done. done.
  - rewrite Heq. case_decide as Hrc; [| done].
    destruct Hrc as [-> ->]. rewrite Hempty. split; [| done].
    intros _. rewrite Horigin in Heq. congruence.
  - rewrite (Hflip r c Hfl). case_decide; [done |].
    rewrite (Hwas r c Hfl). done.
Qed.

(** X1. A legal move flips at least one piece.  A cell of the board that
    [makeMove] returns differs from the cell of the board it was given
    only where it is the cell played, empty before and the mover's after,
    or a cell of the opponent that has become the mover's.  In numbers: for
    some f ≥ 1 the mover has 1 + f cells more than before, the opponent f
    cells fewer, and one cell less is empty. *)
Theorem makeMove_counts B N p row col :
  wfBoard N B → isValidMove B row col p N = Ret true →
  ∃ B' f, makeMove B row col p N = Ret B' ∧ 1 ≤ f ∧
    countCell (Some p) (concat B') = countCell (Some p) (concat B) + 1 + f ∧
    countCell (Some (opponentOf p)) (concat B') =
      countCell (Some (opponentOf p)) (concat B) - f ∧
    countCell None (concat B') = countCell None (concat B) - 1 ∧
    ∀ r c, get B' r c = get B r c ∨
      (r = row ∧ c = col ∧ get B r c = Ret (cell None) ∧
       get B' r c = Ret (cell (Some p))) ∨
      (get B r c = Ret (cell (Some (opponentOf p))) ∧
       get B' r c = Ret (cell (Some p))).
Proof.
  intros Hwf Hvalid.
  destruct (isValidMove_true B N p row col Hwf Hvalid) as [_ Hlegal].
  destruct (makeMove_legal B N p row col Hwf Hlegal)
    as (B' & HB' & Hwf' & Horigin & Hflip & Hother).
  pose proof (makeMove_legal_empties B N p row col B' Hwf Hlegal HB') as Hempties.
  pose proof (countCell_players N B p Hwf) as Htot.
  pose proof (countCell_players N B' p Hwf') as Htot'.
  set (q := opponentOf p) in *.
  exists B', (countCell (Some q) (concat B) - countCell (Some q) (concat B')).
  split; [done |].
  assert (countCell (Some q) (concat B') + 1 ≤ countCell (Some q) (concat B))
    as Hless; [| split_and!; [lia | lia | lia | done |]].
  2: { intros r c. destruct (Hother r c) as [[-> ->] | [Heq | Hfl]].
       - right. left. split_and!; [done | done | apply Hlegal | done].
       - by left.
       - right. right. split; [| by apply Hflip].
         destruct Hfl as (dr & dc & k & i & _ & (_ & Hrun & _) & Hi & -> & ->).
         by apply Hrun. }
  destruct Hlegal as (Hempty & dr & dc & k & Hd & Hk).
  assert (flippedBy B N p row col directions (row + 1 * dr) (col + 1 * dc))
    as Hfirst.
  { exists dr, dc, k, 1. pose proof Hk as (Hk1 & _).
    split_and!; [by apply directions_spec | done | lia | lia | done | done]. }
  assert (ownedAt B N row col dr dc q 1) as [Hin1 Hown1].
  { destruct Hk as (Hk1 & Hrun & _). apply Hrun. lia. }
  pose proof (Hflip _ _ Hfirst) as Hnow.
  destruct (set_wf N B' (row + 1 * dr) (col + 1 * dc) (Some q) Hwf' Hin1)
    as (M & HM & HwfM & HgetM).
  pose proof (set_countCell B' _ _ _ _ M (Some q) Hnow HM) as Hcount.
  rewrite decide_False, decide_True in Hcount by (done || by destruct p).
  assert (countCell (Some q) (concat M) ≤ countCell (Some q) (concat B));
    [| lia].
  apply (countCell_le_ext N); [done | done |].
  intros r c _. rewrite HgetM. case_decide as Hrc.
  - destruct Hrc as [-> ->]. done.
  - intros Hq. destruct (Hother r c) as [[-> ->] | [<- | Hfl]]; [| done |].
    + rewrite Horigin in Hq. simplify_eq. by destruct p.
    + rewrite (Hflip r c Hfl) in Hq. simplify_eq. by destruct p.
Qed.

Lemma makeMove_counts_witness :
  ∃ B' f, makeMove opening8 2 3 black 8 = Ret B' ∧ 1 ≤ f ∧
    countCell (Some black) (concat B') =
      countCell (Some black) (concat opening8) + 1 + f ∧
    countCell (Some (opponentOf black)) (concat B') =
      countCell (Some (opponentOf black)) (concat opening8) - f ∧
    countCell None (concat B') = countCell None (concat opening8) - 1 ∧
    ∀ r c, get B' r c = get opening8 r c ∨
      (r = 2 ∧ c = 3 ∧ get opening8 r c = Ret (cell None) ∧
       get B' r c = Ret (cell (Some black))) ∨
      (get opening8 r c = Ret (cell (Some (opponentOf black))) ∧
       get B' r c = Ret (cell (Some black))).
Proof.
  apply (makeMove_counts opening8 8 black 2 3);
    [exact opening8_wf | reflexivity].
Defined.

(** ** Positions without a move *)

Lemma get_countCell_pos B r c x :
  get B r c = Ret (cell x) → 0 < countCell x (concat B).
Proof.
  unfold get. intros Hget.
  destruct (index B r) as [cells |] eqn:Hr; [| done].
  destruct (index cells c) as [y |] eqn:Hc; simplify_eq.
  apply index_Some in Hr as [_ Hr]. apply index_Some in Hc as [_ Hc].
  assert (x ∈ concat B) as Hin.
  { apply list_elem_of_In, in_concat. exists cells.
    split; apply list_elem_of_In; by eapply list_elem_of_lookup_2. }
  unfold countCell.
  assert (x ∈ filter (λ y, y = x) (concat B)) as Hf
    by (by apply list_elem_of_filter).
  destruct (filter _ (concat B)); [by apply elem_of_nil in Hf |].
  cbn [length]. lia.
Qed.

(** X2. A player has no move on a board without an empty cell, without a
    piece of their own, or without a piece of the opponent:
    [getValidMoves] returns the empty list. *)
Theorem getValidMoves_none B p N :
  wfBoard N B →
  countCell None (concat B) = 0 ∨ countCell (Some p) (concat B) = 0 ∨
    countCell (Some (opponentOf p)) (concat B) = 0 →
  getValidMoves B p N = Ret [].
Proof.
  intros Hwf Hzero. rewrite (getValidMoves_filter B p N Hwf). f_equal.
  pose proof (elem_of_validMoves B p N Hwf) as Hmem.
  destruct (filter _ (rowMajor N)) as [| [row col] moves]; [done |].
  exfalso.
  assert (isValidMove B row col p N = Ret true) as Hvalid by (apply Hmem; left).
  destruct (isValidMove_true B N p row col Hwf Hvalid)
    as (_ & Hempty & dr & dc & k & Hd & Hk & Hrun & _ & Hown).
  pose proof (get_countCell_pos _ _ _ _ Hempty).
  pose proof (get_countCell_pos _ _ _ _ Hown).
  destruct (Hrun 1) as [_ Hopp]; [lia |].
  pose proof (get_countCell_pos _ _ _ _ Hopp). lia.
Qed.

Lemma getValidMoves_none_witness :
  getValidMoves (blankBoard 4) black 4 = Ret [].
Proof.
  apply (getValidMoves_none (blankBoard 4) black 4);
    [split; [reflexivity | repeat constructor] | right; left; reflexivity].
Defined.

(** ** The two colours are treated alike *)

Lemma opponentOf_involutive p : opponentOf (opponentOf p) = p.
Proof. by destruct p. Qed.

Lemma isPlayer_swap v p : isPlayer (swapVal v) (opponentOf p) = isPlayer v p.
Proof. by destruct v as [| [[] |]], p. Qed.

Lemma notNull_swap v : notNull (swapVal v) = notNull v.
Proof. by destruct v as [| [[] |]]. Qed.

Lemma index_fmap {X Y} (f : X → Y) (xs : list X) i :
  index (f <$> xs) i = f <$> index xs i.
Proof. unfold index. case_bool_decide; [apply list_lookup_fmap | done]. Qed.

Lemma get_swap B r c :
  get (swapBoard B) r c = (v ← get B r c; Ret (swapVal v)).
Proof.
  unfold get, swapBoard. rewrite index_fmap.
  destruct (index B r) as [cells |]; cbn; [| done].
  rewrite index_fmap. by destruct (index cells c).
Qed.

Lemma set_swap B r c x :
  set (swapBoard B) r c (swapCell x) = (B' ← set B r c x; Ret (swapBoard B')).
Proof.
  unfold set, swapBoard. rewrite index_fmap.
  destruct (index B r) as [cells |]; cbn; [| done].
  rewrite length_fmap. case_bool_decide; cbn; [| done].
  by rewrite !list_fmap_insert.
Qed.

Lemma set_swap_player B r c p :
  set (swapBoard B) r c (Some (opponentOf p)) =
  (B' ← set B r c (Some p); Ret (swapBoard B')).
Proof. exact (set_swap B r c (Some p)). Qed.

Lemma scanLoop_swap B p q N dr dc fuel : ∀ r c h,
  Engine.scanLoop get fuel (swapBoard B) (opponentOf p) (opponentOf q)
    N dr dc r c h =
  Engine.scanLoop get fuel B p q N dr dc r c h.
Proof.
  induction fuel as [| fuel IH]; intros r c h; [done |].
  cbn [Engine.scanLoop]. destruct (inBounds N r c); [| done].
  rewrite get_swap. destruct (get B r c) as [v | |]; cbn [mbind outcome_bind];
    [| done | done].
  by rewrite !isPlayer_swap, IH.
Qed.

Lemma scanDirections_swap B p q N row col ds :
  Engine.scanDirections get ds (swapBoard B) row col
    (opponentOf p) (opponentOf q) N =
  Engine.scanDirections get ds B row col p q N.
Proof.
  induction ds as [| [dr dc] ds IH]; [done |].
  cbn [Engine.scanDirections]. by rewrite scanLoop_swap, IH.
Qed.

Lemma isValidMove_swap B p N row col :
  isValidMove (swapBoard B) row col (opponentOf p) N = isValidMove B row col p N.
Proof.
  unfold isValidMove, Engine.isValidMove. rewrite get_swap.
  destruct (get B row col) as [v | |]; cbn [mbind outcome_bind]; [| done | done].
  by rewrite notNull_swap, scanDirections_swap.
Qed.

Lemma flipAll_swap p cells : ∀ M,
  Engine.flipAll set (swapBoard M) cells (opponentOf p) =
  (M' ← Engine.flipAll set M cells p; Ret (swapBoard M')).
Proof.
  induction cells as [| [fr fc] cells IH]; intros M; [done |].
  cbn [Engine.flipAll]. rewrite set_swap_player.
  destruct (set M fr fc (Some p)); cbn [mbind outcome_bind]; [| done | done].
  apply IH.
Qed.

Lemma flipLoop_swap M p q N dr dc fuel : ∀ r c toFlip,
  Engine.flipLoop get set fuel (swapBoard M) (opponentOf p) (opponentOf q)
    N dr dc r c toFlip =
  (M' ← Engine.flipLoop get set fuel M p q N dr dc r c toFlip;
   Ret (swapBoard M')).
Proof.
  induction fuel as [| fuel IH]; intros r c toFlip; [done |].
  cbn [Engine.flipLoop]. destruct (inBounds N r c); [| done].
  rewrite get_swap. destruct (get M r c) as [v | |]; cbn [mbind outcome_bind];
    [| done | done].
  rewrite !isPlayer_swap. destruct (isPlayer v q); [apply IH |].
  destruct (isPlayer v p && _); [apply flipAll_swap | done].
Qed.

Lemma flipDirections_swap p q N row col ds : ∀ M,
  Engine.flipDirections get set ds (swapBoard M) row col
    (opponentOf p) (opponentOf q) N =
  (M' ← Engine.flipDirections get set ds M row col p q N; Ret (swapBoard M')).
Proof.
  induction ds as [| [dr dc] ds IH]; intros M; [done |].
  cbn [Engine.flipDirections]. rewrite flipLoop_swap.
  destruct (Engine.flipLoop get set _ M p q N dr dc _ _ _);
    cbn [mbind outcome_bind]; [| done | done].
  apply IH.
Qed.

Lemma makeMove_swap B p N row col :
  makeMove (swapBoard B) row col (opponentOf p) N =
  (B' ← makeMove B row col p N; Ret (swapBoard B')).
Proof.
  unfold makeMove. rewrite isValidMove_swap.
  destruct (isValidMove B row col p N) as [[] | |]; cbn [mbind outcome_bind negb];
    [| done | done | done].
  unfold copyBoard, Engine.placeAndFlip. rewrite !map_id.
  rewrite set_swap_player.
  destruct (set B row col (Some p)); cbn [mbind outcome_bind]; [| done | done].
  apply flipDirections_swap.
Qed.

Lemma forEachM_ext {A} (idxs : list Z) (body body' : Z → A → outcome A) acc :
  (∀ i a, body i a = body' i a) →
  Engine.forEachM idxs body acc = Engine.forEachM idxs body' acc.
Proof.
  intros Hbody. revert acc. induction idxs as [| i idxs IH]; intros acc; [done |].
  cbn [Engine.forEachM]. rewrite Hbody.
  destruct (body' i acc); cbn [mbind outcome_bind]; [apply IH | done | done].
Qed.

Lemma getValidMoves_swap B p N :
  getValidMoves (swapBoard B) (opponentOf p) N = getValidMoves B p N.
Proof.
  unfold getValidMoves, Engine.getValidMoves, Engine.forRange.
  apply forEachM_ext. intros row moves. apply forEachM_ext. intros col acc.
  fold (isValidMove (swapBoard B) row col (opponentOf p) N).
  fold (isValidMove B row col p N). by rewrite isValidMove_swap.
Qed.

(** A loop run on two accumulators that stay related. *)
Lemma forEachM_rel {A A'} (R : A → A' → Prop) (idxs : list Z)
    (body : Z → A → outcome A) (body' : Z → A' → outcome A') acc acc' :
  (∀ i a a', R a a' → orel R (body i a) (body' i a')) →
  R acc acc' →
  orel R (Engine.forEachM idxs body acc) (Engine.forEachM idxs body' acc').
Proof.
  intros Hbody. revert acc acc'.
  induction idxs as [| i idxs IH]; intros acc acc' HR; [done |].
  cbn [Engine.forEachM]. eapply orel_bind; [by apply Hbody | done].
Qed.

Lemma countPieces_swap B N :
  countPieces (swapBoard B) N =
  (counts ← countPieces B N; Ret (counts.2, counts.1)).
Proof.
  unfold countPieces, Engine.countPieces, Engine.forRange.
  pose proof (forEachM_rel (λ a a' : Z * Z, a' = (a.2, a.1)) (seqZ 0 N)
    (λ row counts, Engine.forEachM (seqZ 0 N) (λ col counts,
       let '(black_n, white_n) := counts in
       v ← get B row col;
       if isPlayer v black then Ret (black_n + 1, white_n)
       else if isPlayer v white then Ret (black_n, white_n + 1)
       else Ret (black_n, white_n)) counts)
    (λ row counts, Engine.forEachM (seqZ 0 N) (λ col counts,
       let '(black_n, white_n) := counts in
       v ← get (swapBoard B) row col;
       if isPlayer v black then Ret (black_n + 1, white_n)
       else if isPlayer v white then Ret (black_n, white_n + 1)
       else Ret (black_n, white_n)) counts)
    (0, 0) (0, 0)) as Hrel.
  match type of Hrel with _ → _ → orel _ ?o ?o' =>
    assert (orel (λ a a' : Z * Z, a' = (a.2, a.1)) o o') as Hsim end.
  { apply Hrel; [| done]. intros row a a' ->.
    apply forEachM_rel; [| done]. intros col [b w] ? ->. cbn [fst snd].
    rewrite get_swap. destruct (get B row col) as [v | |];
      cbn [mbind outcome_bind orel]; [| done | done].
    by destruct v as [| [[] |]]. }
  clear Hrel. destruct (Engine.forEachM _ _ _), (Engine.forEachM _ _ _);
    cbn [orel mbind outcome_bind] in *; by simplify_eq.
Qed.

(** X3. Exchanging the two colours on the board and the player exchanges
    them in the results and changes nothing else: the same moves are
    legal, the same cells are listed, the board after a move is the
    exchanged board, and the two counts are exchanged. *)
Theorem colour_symmetry B p N row col :
  isValidMove (swapBoard B) row col (opponentOf p) N = isValidMove B row col p N ∧
  getValidMoves (swapBoard B) (opponentOf p) N = getValidMoves B p N ∧
  makeMove (swapBoard B) row col (opponentOf p) N =
    (B' ← makeMove B row col p N; Ret (swapBoard B')) ∧
  countPieces (swapBoard B) N =
    (counts ← countPieces B N; Ret (counts.2, counts.1)).
Proof.
  split_and!; [apply isValidMove_swap | apply getValidMoves_swap
              | apply makeMove_swap | apply countPieces_swap].
Qed.

(** ** Boards of any shape *)





Section AnyShape.
Variables (p q : Player) (N : Z).





End AnyShape.






(** ** The initial position, for every size *)

Lemma countCell_replicate_None q n :
  countCell (Some q) (replicate n None) = 0.
Proof.
  induction n as [| n IH]; [done |].
  cbn [replicate]. rewrite countCell_cons, IH. by rewrite decide_False.
Qed.

Lemma countCell_blankBoard q N : countCell (Some q) (concat (blankBoard N)) = 0.
Proof.
  unfold blankBoard. induction (Z.to_nat N) as [| n IH] at 1; [done |].
  cbn [replicate concat]. by rewrite countCell_app, countCell_replicate_None, IH.
Qed.

(** The initial board, cell by cell and counted. *)
Lemma createInitialBoard_counts N :
  Z.even N = true → 2 ≤ N ≤ maxArrayLength →
  ∃ B, createInitialBoard N = Ret B ∧ wfBoard N B ∧
    (∀ r c, inBounds N r c = true →
       get B r c =
         Ret (cell (if decide (r = N / 2 ∧ c = N / 2) then Some white
                    else if decide (r = N / 2 ∧ c = N / 2 - 1) then Some black
                    else if decide (r = N / 2 - 1 ∧ c = N / 2) then Some black
                    else if decide (r = N / 2 - 1 ∧ c = N / 2 - 1) then Some white
                    else None))) ∧
    countCell (Some black) (concat B) = 2 ∧
    countCell (Some white) (concat B) = 2.
Proof.
  intros Heven HN.
  destruct (createInitialBoard_cells N Heven HN) as (B & HB & Hwf & Hget).
  exists B. split_and!; [done | done | done | |].
  all: rewrite createInitialBoard_blank in HB by (done || lia).
  all: pose proof (even_half N Heven) as Hhalf.
  all: cbv zeta in HB; set (center := N / 2) in *.
  all: destruct (set_wf N (blankBoard N) (center - 1) (center - 1) (Some white))
         as (B1 & HB1 & Hwf1 & Hget1);
         [apply blankBoard_wf; lia | apply inBounds_true; lia |].
  all: rewrite HB1 in HB; cbn [mbind outcome_bind] in HB.
  all: destruct (set_wf N B1 (center - 1) center (Some black))
         as (B2 & HB2 & Hwf2 & Hget2); [done | apply inBounds_true; lia |].
  all: rewrite HB2 in HB; cbn [mbind outcome_bind] in HB.
  all: destruct (set_wf N B2 center (center - 1) (Some black))
         as (B3 & HB3 & Hwf3 & Hget3); [done | apply inBounds_true; lia |].
  all: rewrite HB3 in HB; cbn [mbind outcome_bind] in HB.
  all: assert (get (blankBoard N) (center - 1) (center - 1) = Ret (cell None))
         as G0 by (apply blankBoard_get, inBounds_true; lia).
  all: assert (get B1 (center - 1) center = Ret (cell None)) as G1
         by (rewrite Hget1, decide_False by lia;
             apply blankBoard_get, inBounds_true; lia).
  all: assert (get B2 center (center - 1) = Ret (cell None)) as G2
         by (rewrite Hget2, Hget1, !decide_False by lia;
             apply blankBoard_get, inBounds_true; lia).
  all: assert (get B3 center center = Ret (cell None)) as G3
         by (rewrite Hget3, Hget2, Hget1, !decide_False by lia;
             apply blankBoard_get, inBounds_true; lia).
  - rewrite (set_countCell B3 _ _ _ _ B (Some black) G3 HB),
            (set_countCell B2 _ _ _ _ B3 (Some black) G2 HB3),
            (set_countCell B1 _ _ _ _ B2 (Some black) G1 HB2),
            (set_countCell _ _ _ _ _ B1 (Some black) G0 HB1),
            countCell_blankBoard.
    repeat case_decide; simplify_eq; lia.
  - rewrite (set_countCell B3 _ _ _ _ B (Some white) G3 HB),
            (set_countCell B2 _ _ _ _ B3 (Some white) G2 HB3),
            (set_countCell B1 _ _ _ _ B2 (Some white) G1 HB2),
            (set_countCell _ _ _ _ _ B1 (Some white) G0 HB1),
            countCell_blankBoard.
    repeat case_decide; simplify_eq; lia.
Qed.

Lemma StronglySorted_rowMajorLt_NoDup (l : list (Z * Z)) :
  StronglySorted rowMajorLt l → NoDup l.
Proof.
  induction 1 as [| x l _ IH Hall]; constructor; [| done].
  rewrite Forall_forall in Hall. intros Hx%Hall.
  unfold rowMajorLt in Hx. lia.
Qed.

Lemma rowMajorLt_asym a b : rowMajorLt a b → rowMajorLt b a → a = b.
Proof. unfold rowMajorLt. lia. Qed.

(** The list that [getValidMoves] returns is the row-major list of the
    cells with a legal move. *)
Lemma getValidMoves_eq B p N moves :
  wfBoard N B → StronglySorted rowMajorLt moves →
  (∀ row col, (row, col) ∈ moves ↔ isValidMove B row col p N = Ret true) →
  getValidMoves B p N = Ret moves.
Proof.
  intros Hwf Hsorted Hmem. rewrite (getValidMoves_filter B p N Hwf). f_equal.
  pose proof (StronglySorted_filter rowMajorLt
    (λ rc, isValidMove B rc.1 rc.2 p N = Ret true) (rowMajor N)
    (StronglySorted_rowMajor N)) as Hsorted'.
  apply (StronglySorted_unique_strong rowMajorLt); [| done | done |].
  - intros ????. apply rowMajorLt_asym.
  - apply NoDup_Permutation; [by apply StronglySorted_rowMajorLt_NoDup ..|].
    intros [row col]. by rewrite (elem_of_validMoves B p N Hwf), Hmem.
Qed.

Section Opening.
Variables (N : Z) (B : Board).
Hypothesis Heven : Z.even N = true.
Hypothesis HN : 4 ≤ N.
Hypothesis HB : createInitialBoard N = Ret B.

Lemma opening_wf : wfBoard N B.
Proof.
  pose proof (createInitialBoard_size N B HB) as Hsize.
  destruct (createInitialBoard_counts N Heven) as (B' & HB' & Hwf & _); [lia |].
  assert (B' = B) as -> by congruence. done.
Qed.

Lemma opening_get r c :
  inBounds N r c = true →
  get B r c =
    Ret (cell (if decide (r = N / 2 ∧ c = N / 2) then Some white
               else if decide (r = N / 2 ∧ c = N / 2 - 1) then Some black
               else if decide (r = N / 2 - 1 ∧ c = N / 2) then Some black
               else if decide (r = N / 2 - 1 ∧ c = N / 2 - 1) then Some white
               else None)).
Proof.
  pose proof (createInitialBoard_size N B HB) as Hsize.
  destruct (createInitialBoard_counts N Heven) as (B' & HB' & _ & Hget & _);
    [lia |].
  assert (B' = B) as -> by congruence. apply Hget.
Qed.

Lemma opening_white r c :
  inBounds N r c = true →
  get B r c = Ret (cell (Some white)) ↔
  (r = N / 2 ∧ c = N / 2) ∨ (r = N / 2 - 1 ∧ c = N / 2 - 1).
Proof.
  intros Hin. rewrite opening_get by done.
  repeat case_decide; split; intros H'; simplify_eq; try lia; done.
Qed.

Lemma opening_black r c :
  inBounds N r c = true →
  get B r c = Ret (cell (Some black)) ↔
  (r = N / 2 ∧ c = N / 2 - 1) ∨ (r = N / 2 - 1 ∧ c = N / 2).
Proof.
  intros Hin. rewrite opening_get by done.
  repeat case_decide; split; intros H'; simplify_eq; try lia; done.
Qed.

Lemma opening_empty r c :
  inBounds N r c = true →
  get B r c = Ret (cell None) ↔
  ¬ ((r = N / 2 ∨ r = N / 2 - 1) ∧ (c = N / 2 ∨ c = N / 2 - 1)).
Proof.
  intros Hin. rewrite opening_get by done.
  repeat case_decide; split; intros H'; simplify_eq; try lia; done.
Qed.

(** The four opening moves of black, and no other. *)
Lemma opening_legal row col :
  legalMove B N black row col ↔
  (row = N / 2 - 2 ∧ col = N / 2 - 1) ∨ (row = N / 2 - 1 ∧ col = N / 2 - 2) ∨
  (row = N / 2 ∧ col = N / 2 + 1) ∨ (row = N / 2 + 1 ∧ col = N / 2).
Proof.
  pose proof (even_half N Heven) as Hhalf. set (c0 := N / 2) in *.
  split.
  - intros (Hempty & dr & dc & k & (Hdr & Hdc & Hne) & Hk & Hrun & Hin & Hown).
    cbn [opponentOf] in Hrun.
    destruct (Hrun 1) as [Hin1 Hw1]; [lia |].
    apply opening_white in Hw1; [| done].
    apply opening_black in Hown; [| done].
    destruct (decide (k = 2)) as [-> | Hk2]; [lia |].
    destruct (Hrun 2) as [Hin2 Hw2]; [lia |].
    apply opening_white in Hw2; [| done].
    destruct (decide (k = 3)) as [-> | Hk3]; [lia |].
    destruct (Hrun 3) as [Hin3 Hw3]; [lia |].
    apply opening_white in Hw3; [| done]. lia.
  - assert (∀ r c dr dc,
      isDirection dr dc → inBounds N r c = true →
      ¬ ((r = c0 ∨ r = c0 - 1) ∧ (c = c0 ∨ c = c0 - 1)) →
      (r + dr = c0 ∧ c + dc = c0) ∨ (r + dr = c0 - 1 ∧ c + dc = c0 - 1) →
      (r + 2 * dr = c0 ∧ c + 2 * dc = c0 - 1) ∨
        (r + 2 * dr = c0 - 1 ∧ c + 2 * dc = c0) →
      legalMove B N black r c) as Hmk.
    { intros r c dr dc Hd Hin Hout H1 H2. split.
      - by apply opening_empty.
      - exists dr, dc, 2. split; [done |].
        assert (inBounds N (r + 1 * dr) (c + 1 * dc) = true) as Hin1
          by (apply inBounds_true; lia).
        assert (inBounds N (r + 2 * dr) (c + 2 * dc) = true) as Hin2
          by (apply inBounds_true; lia).
        split_and!; [lia | |].
        + intros i Hi. assert (i = 1) as -> by lia. split; [done |].
          cbn [opponentOf]. apply opening_white; [done | lia].
        + split; [done |]. by apply opening_black. }
    intros [[-> ->] | [[-> ->] | [[-> ->] | [-> ->]]]].
    + apply (Hmk _ _ 1 0); [unfold isDirection; lia | apply inBounds_true; lia | lia ..].
    + apply (Hmk _ _ 0 1); [unfold isDirection; lia | apply inBounds_true; lia | lia ..].
    + apply (Hmk _ _ 0 (-1)); [unfold isDirection; lia | apply inBounds_true; lia | lia ..].
    + apply (Hmk _ _ (-1) 0); [unfold isDirection; lia | apply inBounds_true; lia | lia ..].
Qed.

Lemma opening_isValidMove row col :
  isValidMove B row col black N = Ret true ↔
  (row = N / 2 - 2 ∧ col = N / 2 - 1) ∨ (row = N / 2 - 1 ∧ col = N / 2 - 2) ∨
  (row = N / 2 ∧ col = N / 2 + 1) ∨ (row = N / 2 + 1 ∧ col = N / 2).
Proof.
  rewrite <- opening_legal. split.
  - intros Hv. by apply (isValidMove_true B N black row col opening_wf).
  - intros Hlegal.
    pose proof (legalMove_inBounds B N black row col opening_wf Hlegal)
      as [Hrow _]%inBounds_true.
    destruct (isValidMove_spec B N black row col opening_wf Hrow)
      as (b & Hb & Hiff).
    apply Hiff in Hlegal. by subst.
Qed.
End Opening.

(** X5. For every even N ≥ 4 that is the length of an array the initial
    position has two black and two white pieces, and black, who moves
    first, has the four standard opening moves and no other;
    [getValidMoves] lists them in row-major order. *)
Theorem opening_position N :
  Z.even N = true → 4 ≤ N ≤ maxArrayLength →
  ∃ B, createInitialBoard N = Ret B ∧
    countPieces B N = Ret (2, 2) ∧
    getValidMoves B black N =
      Ret [ (N / 2 - 2, N / 2 - 1); (N / 2 - 1, N / 2 - 2);
            (N / 2, N / 2 + 1); (N / 2 + 1, N / 2) ].
Proof.
  intros Heven HN.
  destruct (createInitialBoard_counts N Heven) as (B & HB & Hwf & _ & Hb & Hw);
    [lia |].
  exists B. split_and!; [done | |].
  - rewrite (countPieces_fold N B Hwf), foldl_tally. cbn [fst snd].
    by rewrite Hb, Hw.
  - apply getValidMoves_eq; [done | |].
    + unfold rowMajorLt.
      repeat (constructor; [| repeat constructor; cbn [fst snd]; lia]).
      constructor.
    + intros row col. rewrite (opening_isValidMove N B Heven (proj1 HN) HB).
      rewrite !elem_of_cons, elem_of_nil. split.
      * intros [? | [? | [? | [? | []]]]]; simplify_eq; lia.
      * intros [[-> ->] | [[-> ->] | [[-> ->] | [-> ->]]]]; tauto.
Qed.

Lemma opening_position_witness :
  ∃ B, createInitialBoard 6 = Ret B ∧
    countPieces B 6 = Ret (2, 2) ∧
    getValidMoves B black 6 =
      Ret [ (6 / 2 - 2, 6 / 2 - 1); (6 / 2 - 1, 6 / 2 - 2);
            (6 / 2, 6 / 2 + 1); (6 / 2 + 1, 6 / 2) ].
Proof.
  apply (opening_position 6); [reflexivity | unfold maxArrayLength; lia].
Defined.

(** ** The session of a game screen *)

Lemma isValidMove_occupied B row col p q N :
  get B row col = Ret (cell (Some q)) → isValidMove B row col p N = Ret false.
Proof. intros Hget. unfold isValidMove, Engine.isValidMove. by rewrite Hget. Qed.

(** An accepted click, step by step. *)
Lemma handleCellClick_accepted N st row col :
  sessionInv N st → gameOver st = false →
  isValidMove (board st) row col (currentPlayer st) N = Ret true →
  ∃ st', handleCellClick N st row col = Ret st' ∧ sessionInv N st' ∧
    makeMove (board st) row col (currentPlayer st) N = Ret (board st') ∧
    get (board st') row col = Ret (cell (Some (currentPlayer st))) ∧
    occupied (board st') = occupied (board st) + 1.
Proof.
  intros (Hwf & Hplaying & _) Hgo Hvalid.
  destruct (Hplaying Hgo) as [Hwinner _].
  destruct (isValidMove_true _ _ _ _ _ Hwf Hvalid) as [Hrow Hlegal].
  destruct (makeMove_legal _ N _ row col Hwf Hlegal)
    as (newBoard & Hnew & Hwf' & Horigin & _).
  pose proof (makeMove_legal_empties _ N _ row col newBoard Hwf Hlegal Hnew)
    as Hempties.
  assert (occupied newBoard = occupied (board st) + 1) as Hocc.
  { rewrite (occupied_empties N newBoard), (occupied_empties N (board st)) by done.
    lia. }
  destruct (getValidMoves_hasMove newBoard (opponentOf (currentPlayer st)) N Hwf')
    as (nextMoves & Hnext & Hnext_iff).
  destruct (getValidMoves_hasMove newBoard (currentPlayer st) N Hwf')
    as (curMoves & Hcur & Hcur_iff).
  pose proof (countPieces_fold N newBoard Hwf') as Hcount.
  rewrite foldl_tally in Hcount. cbn [fst snd] in Hcount.
  unfold handleCellClick.
  rewrite Hgo, Hvalid. cbn [mbind outcome_bind negb].
  rewrite Hnew. cbn [mbind outcome_bind].
  rewrite Hnext. cbn [mbind outcome_bind].
  rewrite Hcur. cbn [mbind outcome_bind].
  destruct (bool_decide (0 < length nextMoves)%nat) eqn:Enext.
  - eexists. split; [done |]. cbn [board]. split_and!; [| done | done | done].
    split_and!; cbn [board gameOver winner currentPlayer]; [done | | done].
    intros _. split; [done |]. by apply Hnext_iff.
  - destruct (bool_decide (0 < length curMoves)%nat) eqn:Ecur.
    + eexists. split; [done |]. cbn [board]. split_and!; [| done | done | done].
      split_and!; cbn [board gameOver winner currentPlayer]; [done | | done].
      intros _. split; [done |]. by apply Hcur_iff.
    + rewrite Hcount. cbn [mbind outcome_bind].
      eexists. split; [done |]. cbn [board]. split_and!; [| done | done | done].
      split_and!; cbn [board gameOver winner currentPlayer]; [done | done |].
      intros _.
      assert (¬ hasMove newBoard (opponentOf (currentPlayer st)) N) as Hno_next.
      { intros Hh%Hnext_iff. congruence. }
      assert (¬ hasMove newBoard (currentPlayer st) N) as Hno_cur.
      { intros Hh%Hcur_iff. congruence. }
      split_and!; [by destruct (currentPlayer st) .. | done].
Qed.

(** A click on a row of the board returns and keeps the invariant. *)
Lemma handleCellClick_keeps N st row col :
  sessionInv N st → 0 ≤ row < N →
  ∃ st', handleCellClick N st row col = Ret st' ∧ sessionInv N st'.
Proof.
  intros Hinv Hrow. pose proof Hinv as (Hwf & _).
  destruct (gameOver st) eqn:Hgo.
  { exists st. split; [| done]. unfold handleCellClick. by rewrite Hgo. }
  destruct (isValidMove_spec (board st) N (currentPlayer st) row col Hwf Hrow)
    as ([] & Hb & _).
  - destruct (handleCellClick_accepted N st row col Hinv Hgo Hb)
      as (st' & Hst' & Hinv' & _). eauto.
  - exists st. split; [| done]. unfold handleCellClick. by rewrite Hgo, Hb.
Qed.


(** The session at the start of a game satisfies the invariant. *)
Lemma initialSession_invariant N :
  Z.even N = true → 4 ≤ N ≤ maxArrayLength →
  ∃ st, initialSession N = Ret st ∧ sessionInv N st ∧ occupied (board st) = 4.
Proof.
  intros Heven HN.
  destruct (createInitialBoard_counts N Heven) as (B & HB & Hwf & _ & Hb & Hw);
    [lia |].
  unfold initialSession. rewrite HB. cbn [mbind outcome_bind].
  eexists. split; [done |]. split; [| unfold occupied; cbn [board]; lia].
  split_and!; cbn [board gameOver winner currentPlayer]; [done | | done].
  intros _. split; [done |]. exists (N / 2 - 2), (N / 2 - 1).
  apply (opening_isValidMove N B Heven (proj1 HN) HB). by left.
Qed.


(** The outcome of a click, case by case. *)
Lemma handleCellClick_outcome N st row col :
  sessionInv N st →
  (gameOver st = true → handleCellClick N st row col = Ret st) ∧
  (gameOver st = false → ¬ (0 ≤ row < N) →
     handleCellClick N st row col = Throw TypeError) ∧
  (gameOver st = false → 0 ≤ row < N →
     ∃ st', handleCellClick N st row col = Ret st' ∧
       (isValidMove (board st) row col (currentPlayer st) N = Ret false →
          st' = st) ∧
       (isValidMove (board st) row col (currentPlayer st) N = Ret true →
          get (board st') row col = Ret (cell (Some (currentPlayer st))) ∧
          occupied (board st') = occupied (board st) + 1)).
Proof.
  intros Hinv. pose proof Hinv as (Hwf & _). split_and!.
  - intros Hgo. unfold handleCellClick. by rewrite Hgo.
  - intros Hgo Hrow. unfold handleCellClick.
    by rewrite Hgo, (isValidMove_no_row _ N _ row col Hwf Hrow).
  - intros Hgo Hrow.
    destruct (isValidMove_spec (board st) N (currentPlayer st) row col Hwf Hrow)
      as ([] & Hb & _).
    + destruct (handleCellClick_accepted N st row col Hinv Hgo Hb)
        as (st' & Hst' & _ & _ & Horigin & Hocc).
      exists st'. split_and!; [done | by rewrite Hb | done].
    + exists st. split_and!; [| done | by rewrite Hb].
      unfold handleCellClick. by rewrite Hgo, Hb.
Qed.



(** X8. A second click on the same cell changes nothing: after a click
    has returned, the same click returns the session it is given. *)
Theorem handleCellClick_twice N st row col st' :
  sessionInv N st →
  handleCellClick N st row col = Ret st' →
  handleCellClick N st' row col = Ret st'.
Proof.
  intros Hinv Hclick. pose proof Hinv as (Hwf & _).
  destruct (handleCellClick_outcome N st row col Hinv) as (Hover & Hoff & Hon).
  destruct (gameOver st) eqn:Hgo.
  { rewrite Hover in Hclick by done. injection Hclick as <-. by apply Hover. }
  destruct (decide (0 ≤ row < N)) as [Hrow | Hrow];
    [| by rewrite Hoff in Hclick].
  destruct (isValidMove_spec (board st) N (currentPlayer st) row col Hwf Hrow)
    as ([] & Hb & _).
  - destruct (handleCellClick_accepted N st row col Hinv Hgo Hb)
      as (st1 & Hst1 & _ & _ & Horigin & _).
    assert (st1 = st') as -> by congruence.
    unfold handleCellClick. destruct (gameOver st'); [done |].
    by rewrite (isValidMove_occupied _ _ _ _ _ _ Horigin).
  - destruct (Hon eq_refl Hrow) as (st1 & Hst1 & Hsame & _).
    assert (st1 = st') as -> by congruence.
    rewrite (Hsame Hb) in *. done.
Qed.

Lemma handleCellClick_twice_witness :
  handleCellClick 4 (mkSession
         (let o := None in let w := Some white in let b := Some black in
          [ [b; b; b; o];
            [o; o; o; o];
            [o; o; o; o];
            [b; w; o; o] ])
         black false None) 0 0 =
  Ret (mkSession
         (let o := None in let w := Some white in let b := Some black in
          [ [b; b; b; o];
            [o; o; o; o];
            [o; o; o; o];
            [b; w; o; o] ])
         black false None).
Proof.
  apply (handleCellClick_twice 4 (mkSession skipBoard black false None) 0 0);
    [| reflexivity].
  split_and!; cbn [board gameOver winner currentPlayer];
    [split; [reflexivity | repeat constructor] | | intros [=]].
  intros _. split; [reflexivity |]. exists 0, 0. reflexivity.
Defined.

(** ** The length of a game *)




(** ** What the game screen shows *)


Lemma render_returns N st :
  wfBoard N (board st) →
  render N st =
  Ret (mkView
         (countCell (Some black) (concat (board st)),
          countCell (Some white) (concat (board st)))
         (statusText st)
         (imap (λ rowIndex row,
                  imap (λ colIndex x,
                          (isHighlighted
                             (filter (λ rc, isValidMove (board st) rc.1 rc.2
                                               (currentPlayer st) N = Ret true)
                                     (rowMajor N))
                             rowIndex colIndex, x)) row)
               (board st))).
Proof.
  intros Hwf. unfold render.
  rewrite (countPieces_fold N _ Hwf), foldl_tally. cbn [mbind outcome_bind fst snd].
  by rewrite (getValidMoves_filter _ _ N Hwf).
Qed.





(** ** The application *)

Lemma resetGame_invariant N st :
  Z.even N = true → 4 ≤ N ≤ maxArrayLength →
  ∃ st', resetGame N st = Ret st' ∧ sessionInv N st' ∧
         initialSession N = Ret st'.
Proof.
  intros Heven HN.
  destruct (initialSession_invariant N Heven HN) as (st' & Hst' & Hinv' & _).
  exists st'. split_and!; [| done | done]. exact Hst'.
Qed.

(** One click keeps the application in order. *)
Lemma fire_invariant a e o :
  appInv a → fire a e = Some o → ∃ a', o = Ret a' ∧ appInv a'.
Proof.
  destruct a as [gs N sc]. unfold appInv, fire.
  cbn [gameState boardSize screen]. intros [Hsize Hscreen] Hfire.
  assert (Z.even N = true ∧ 4 ≤ N ≤ maxArrayLength) as [Heven HN].
  { unfold maxArrayLength.
    destruct Hsize as [-> | ->]; split; (reflexivity || lia). }
  destruct gs, sc as [st |]; try done.
  - destruct e; try done; simplify_eq;
      unfold handleSelectSize, mountScreen; cbn [gameState boardSize screen].
    + destruct (initialSession_invariant 6) as (st & -> & Hinv & _);
        [reflexivity | unfold maxArrayLength; lia |].
      cbn [mbind outcome_bind]. eexists. split; [done |].
      cbn [gameState boardSize screen]. split; [by left | done].
    + destruct (initialSession_invariant 8) as (st & -> & Hinv & _);
        [reflexivity | unfold maxArrayLength; lia |].
      cbn [mbind outcome_bind]. eexists. split; [done |].
      cbn [gameState boardSize screen]. split; [by right | done].
  - destruct e as [| | | r c |]; try done.
    + simplify_eq. unfold handleBackToStart, mountScreen.
      cbn [gameState boardSize screen]. eexists. split; [done |].
      cbn [gameState boardSize screen]. done.
    + destruct (board st !! r) as [row |] eqn:Hr; [| done]. cbn in Hfire.
      destruct (row !! c) eqn:Hc; [| done]. simplify_eq.
      assert (0 ≤ Z.of_nat r < N) as Hrow.
      { apply lookup_lt_Some in Hr. destruct Hscreen as [[? _] _]. lia. }
      destruct (handleCellClick_keeps N st (Z.of_nat r) (Z.of_nat c)
                  Hscreen Hrow) as (st' & -> & Hinv').
      cbn [mbind outcome_bind]. eexists. split; [done |].
      cbn [gameState boardSize screen]. done.
    + simplify_eq.
      destruct (resetGame_invariant N st Heven HN) as (st' & -> & Hinv' & _).
      cbn [mbind outcome_bind]. eexists. split; [done |].
      cbn [gameState boardSize screen]. done.
Qed.

Lemma reachable_appInv a : reachable a → appInv a.
Proof.
  induction 1 as [| a e a' _ IH Hfire].
  - split; [by right | done].
  - destruct (fire_invariant a e _ IH Hfire) as (a0 & [= <-] & Hinv'). done.
Qed.

(** X12. Whatever the user clicks, from the first render on: no handler
    raises an exception, the board size is 6 or 8, the start screen has no
    game, the game screen has a session that satisfies the invariant of a
    session, and its render returns. *)
Theorem app_safe a :
  reachable a →
  appInv a ∧
  (∀ e o, fire a e = Some o → ∃ a', o = Ret a' ∧ appInv a') ∧
  (∀ st, screen a = Some st → ∃ v, render (boardSize a) st = Ret v).
Proof.
  intros Hreach. pose proof (reachable_appInv a Hreach) as Hinv.
  split_and!; [done | intros e o; by apply fire_invariant |].
  intros st Hst. destruct Hinv as [_ Hscreen]. rewrite Hst in Hscreen.
  destruct (gameState a); [done |].
  destruct Hscreen as (Hwf & _). eexists. by apply render_returns.
Qed.

Lemma app_safe_witness :
  appInv initialApp ∧
  (∀ e o, fire initialApp e = Some o → ∃ a', o = Ret a' ∧ appInv a') ∧
  (∀ st, screen initialApp = Some st →
     ∃ v, render (boardSize initialApp) st = Ret v).
Proof. apply (app_safe initialApp). exact reachable_initial. Defined.

(** ** The arrays of the initial board *)

Lemma heap_createInitialBoard_copyOf s size :
  orel (λ B r, copyOf s (r.2) B (r.1) ∧ (r.2 ∉ dom (Heap.outers s)))
       (createInitialBoard size) (Heap.createInitialBoard s size).
Proof.
  unfold createInitialBoard, Heap.createInitialBoard, newArray.
  case_bool_decide as Hsize; [| done]. cbn [mbind outcome_bind].
  rewrite mapM_replicate_ret, length_replicate. cbn [mbind outcome_bind].
  destruct (allocRows_spec size (Z.to_nat size) Hsize s)
    as (s1 & rows & -> & Hout & Hin & Hnd & Hsh & Hnew).
  cbn [mbind outcome_bind]. unfold Heap.allocOuter. rewrite Hout.
  set (b := fresh (dom (Heap.outers s))).
  assert (Heap.outers s !! b = None) as Hfresh.
  { apply not_elem_of_dom, is_fresh. }
  destruct (Z.even size); [| done]. cbv zeta.
  set (s2 := Heap.mkStore _ _).
  assert (copyOf s b (replicate (Z.to_nat size) (replicate (Z.to_nat size) None)) s2)
    as Hcopy.
  { exists rows. unfold s2. cbn [Heap.outers Heap.inners].
    split_and!; [by rewrite lookup_insert_eq | done | done | done | | done].
    by apply insert_subseteq. }
  eapply orel_bind; [by apply assign_copyOf |]. intros B1 s3 H1.
  eapply orel_bind; [by apply assign_copyOf |]. intros B2 s4 H2.
  eapply orel_bind; [by apply assign_copyOf |]. intros B3 s5 H3.
  eapply (orel_bind_ret _ _ _ _ (λ s6, (s6, b))); [by apply assign_copyOf |].
  intros B4 s6 Hcopy4. cbn [fst snd]. split; [done | apply is_fresh].
Qed.

(** X13. The rows of the initial board are arrays of their own: run in
    any store, for an even size from 2 up that is the length of an array,
    [createInitialBoard] returns a new array of rows that are new and
    pairwise distinct, holding the initial board, and it writes to no
    array that the store had. *)
Theorem createInitialBoard_rows s size :
  Z.even size = true → 2 ≤ size ≤ maxArrayLength →
  ∃ s' b rows B,
    Heap.createInitialBoard s size = Ret (s', b) ∧
    createInitialBoard size = Ret B ∧
    Heap.deref s' b = Some B ∧
    Heap.outers s' !! b = Some rows ∧ NoDup rows ∧
    (∀ l, l ∈ rows → l ∉ dom (Heap.inners s)) ∧
    (b ∉ dom (Heap.outers s)) ∧
    Heap.outers s ⊆ Heap.outers s' ∧ Heap.inners s ⊆ Heap.inners s'.
Proof.
  intros Heven Hsize.
  destruct (createInitialBoard_cells size Heven Hsize) as (B & HB & _).
  pose proof (heap_createInitialBoard_copyOf s size) as Hsim.
  rewrite HB in Hsim.
  destruct (Heap.createInitialBoard s size) as [[s' b] | |]; cbn [orel] in Hsim;
    [| done | done].
  cbn [fst snd] in Hsim.
  destruct Hsim as [(rows & Hb & Hnd & Hsh & Hnew & Hout & Hin) Hfresh].
  exists s', b, rows, B. split_and!; try done.
  apply deref_shows. eauto.
Qed.

Lemma createInitialBoard_rows_witness :
  ∃ s' b rows B,
    Heap.createInitialBoard openingStore 6 = Ret (s', b) ∧
    createInitialBoard 6 = Ret B ∧
    Heap.deref s' b = Some B ∧
    Heap.outers s' !! b = Some rows ∧ NoDup rows ∧
    (∀ l, l ∈ rows → l ∉ dom (Heap.inners openingStore)) ∧
    (b ∉ dom (Heap.outers openingStore)) ∧
    Heap.outers openingStore ⊆ Heap.outers s' ∧
    Heap.inners openingStore ⊆ Heap.inners s'.
Proof.
  apply (createInitialBoard_rows openingStore 6);
    [reflexivity | unfold maxArrayLength; lia].
Defined.

(** ** When the game goes on *)

Lemma appAfterSize8_reachable : reachable appAfterSize8.
Proof.
  apply (reachable_click initialApp ClickSize8); [apply reachable_initial |].
  reflexivity.
Defined.

(** X14. In a game that the application shows as not over, the board has
    an empty cell, a black piece and a white piece, and the player to move
    has a legal move: the game is never left open on a full board, nor
    after one colour has lost its last piece. *)
Theorem open_game_has_moves a st :
  reachable a → screen a = Some st → gameOver st = false →
  hasMove (board st) (currentPlayer st) (boardSize a) ∧
  0 < countCell None (concat (board st)) ∧
  0 < countCell (Some black) (concat (board st)) ∧
  0 < countCell (Some white) (concat (board st)).
Proof.
  intros Hreach Hst Hgo.
  destruct (reachable_appInv a Hreach) as [_ Hscreen]. rewrite Hst in Hscreen.
  destruct (gameState a); [done |].
  destruct Hscreen as (Hwf & Hopen & _).
  destruct (Hopen Hgo) as [_ Hmove]. split; [done |].
  destruct Hmove as (row & col & Hvalid).
  destruct (isValidMove_true _ _ _ _ _ Hwf Hvalid)
    as (_ & Hempty & dr & dc & k & _ & Hk & Hrun & _ & Hown).
  destruct (Hrun 1) as [_ Hopp]; [lia |].
  pose proof (get_countCell_pos _ _ _ _ Hempty).
  pose proof (get_countCell_pos _ _ _ _ Hown).
  pose proof (get_countCell_pos _ _ _ _ Hopp).
  destruct (currentPlayer st); cbn [opponentOf] in *; done.
Qed.

Lemma open_game_has_moves_witness :
  let st := mkSession opening8 black false None in
  hasMove (board st) (currentPlayer st) (boardSize appAfterSize8) ∧
  0 < countCell None (concat (board st)) ∧
  0 < countCell (Some black) (concat (board st)) ∧
  0 < countCell (Some white) (concat (board st)).
Proof.
  apply (open_game_has_moves appAfterSize8
           (mkSession opening8 black false None));
    [exact appAfterSize8_reachable | reflexivity | reflexivity].
Defined.
